(** * photo-app: event bus, decorator chain, codecs, facade and gallery

    A shallow embedding of the Go packages [events], [image], [codec],
    [storage], [camera] and [gallery], with the Go slice machinery
    (backing arrays, length, capacity, in-place [append]) made explicit,
    because several properties of the program depend on which slices share
    a backing array. *)

From Stdlib.Strings Require Import Byte.
From Stdlib Require Import DecimalString.
From Stdlib Require OrderedTypeEx.
From stdpp Require Import base numbers list sorting strings gmap.

Open Scope Z_scope.
Open Scope nat_scope.

(** ** Go slices over a heap of backing arrays *)

(** The Go runtime picks the capacity of a reallocated backing array; the
    program cannot rely on the policy, so it is a parameter: [growcap c n]
    is the spare room left after the [n] elements of a slice that outgrew a
    capacity of [c]. *)
Class GrowthPolicy := growcap : nat → nat → nat.

(** A runtime that doubles the old capacity when that is enough, and
    otherwise allocates exactly what is needed. *)
Definition doubling : GrowthPolicy := λ c n, 2 * c - n.

(** A slice header: backing array, offset of the first element in it,
    length and capacity (both counted from the offset). *)
Record slice := Slice { ptr : nat; off : nat; len : nat; cap : nat }.

#[global] Instance slice_eq_dec : EqDecision slice.
Proof. solve_decision. Defined.

(** [nil] and the empty composite literal: nothing can be read or written
    through either, and [append] always reallocates. *)
Definition nil_slice : slice := Slice 0 0 0 0.

(** Arrays are never freed; the address of an array is its index. *)
Abbreviation heap A := (list (list A)).

Section Slices.
Context {A : Type} `{!Inhabited A} `{!GrowthPolicy}.

Local Abbreviation heap := (heap A).

Definition array (h : heap) (p : nat) : list A := default [] (h !! p).

Definition seg (o n : nat) (a : list A) : list A := take n (drop o a).

(** The elements visible through a slice. *)
Definition contents (h : heap) (s : slice) : list A :=
  seg (off s) (len s) (array h (ptr s)).

(** Overwrites the cells [i .. i + length xs) of an array. *)
Definition store_at (i : nat) (xs : list A) (a : list A) : list A :=
  take i a ++ xs ++ drop (i + length xs) a.

Definition valid (h : heap) (s : slice) : Prop :=
  len s ≤ cap s ∧ off s + cap s ≤ length (array h (ptr s)).

(** [make([]T, n)] *)
Definition make (h : heap) (n : nat) : heap * slice :=
  (h ++ [replicate n inhabitant], Slice (length h) 0 n n).

(** [copy(dst, src)]: the source is read before anything is written. *)
Definition copy (h : heap) (dst src : slice) : heap :=
  let n := min (len dst) (len src) in
  alter (store_at (off dst) (take n (contents h src))) (ptr dst) h.

(** [s[lo:hi]] *)
Definition reslice (s : slice) (lo hi : nat) : slice :=
  Slice (ptr s) (off s + lo) (hi - lo) (cap s - lo).

(** [append(s, xs...)]: in place when the capacity allows, otherwise into
    a new array. *)
Definition append (h : heap) (s : slice) (xs : list A) : heap * slice :=
  let n := len s + length xs in
  if decide (n ≤ cap s) then
    (alter (store_at (off s + len s) xs) (ptr s) h,
     Slice (ptr s) (off s) n (cap s))
  else
    let spare := growcap (cap s) n in
    (h ++ [contents h s ++ xs ++ replicate spare inhabitant],
     Slice (length h) 0 n (n + spare)).

(** *** Arrays *)

Lemma array_alter_eq (f : list A → list A) h p :
  p < length h → array (alter f p h) p = f (array h p).
Proof.
  intros Hp. unfold array. rewrite list_lookup_alter_eq.
  destruct (lookup_lt_is_Some_2 h p Hp) as [a Ha]. by rewrite Ha.
Qed.

Lemma array_alter_ne (f : list A → list A) h p q :
  p ≠ q → array (alter f p h) q = array h q.
Proof. intros Hne. unfold array. by rewrite list_lookup_alter_ne. Qed.

Lemma array_alter_out (f : list A → list A) h p :
  length h ≤ p → alter f p h = h.
Proof.
  revert p. induction h as [|a h IH]; intros [|p] Hp; simpl in *;
    try done; try lia.
  f_equal. apply IH. lia.
Qed.

Lemma array_app_l h k p : p < length h → array (h ++ k) p = array h p.
Proof. intros Hp. unfold array. by rewrite lookup_app_l. Qed.

Lemma array_app_new h a : array (h ++ [a]) (length h) = a.
Proof. unfold array. by rewrite list_lookup_middle. Qed.

Lemma array_out h p : length h ≤ p → array h p = [].
Proof. intros Hp. unfold array. by rewrite lookup_ge_None_2. Qed.

(** *** Segments of an overwritten array *)

Lemma length_store_at i xs a :
  i + length xs ≤ length a → length (store_at i xs a) = length a.
Proof.
  intros Hi. unfold store_at.
  rewrite !length_app, length_take, length_drop. lia.
Qed.

Lemma seg_length o n a : o + n ≤ length a → length (seg o n a) = n.
Proof. intros Hn. unfold seg. rewrite length_take, length_drop. lia. Qed.

Lemma seg_store_at_below o n i xs a :
  o + n ≤ i → i ≤ length a → seg o n (store_at i xs a) = seg o n a.
Proof.
  intros Hle Hi. unfold seg, store_at.
  rewrite !take_drop_commute. f_equal.
  rewrite take_app_le by (rewrite length_take; lia).
  rewrite take_take. f_equal. lia.
Qed.

Lemma seg_store_at_extend o n xs a :
  o + n + length xs ≤ length a →
  seg o (n + length xs) (store_at (o + n) xs a) = seg o n a ++ xs.
Proof.
  intros Hle. unfold seg, store_at.
  rewrite drop_app_le by (rewrite length_take; lia).
  rewrite <- take_drop_commute.
  rewrite take_app_add' by (rewrite length_take, length_drop; lia).
  f_equal. by rewrite take_app_length.
Qed.

Lemma seg_store_at_exact o xs a :
  o + length xs ≤ length a → seg o (length xs) (store_at o xs a) = xs.
Proof.
  intros Hle. unfold seg, store_at.
  rewrite drop_app_length' by (rewrite length_take; lia).
  apply take_app_length.
Qed.

Lemma seg_app_l o n a b :
  o + n ≤ length a → seg o n (a ++ b) = seg o n a.
Proof.
  intros Hle. unfold seg.
  rewrite drop_app_le by lia.
  rewrite take_app_le by (rewrite length_drop; lia). done.
Qed.

Lemma seg_0_app n a b : n = length a → seg 0 n (a ++ b) = a.
Proof. intros ->. unfold seg. rewrite drop_0. apply take_app_length. Qed.

(** *** [make], [copy] and [append] *)

Lemma make_contents h n :
  contents (make h n).1 (make h n).2 = replicate n inhabitant.
Proof.
  unfold contents, make; simpl. rewrite array_app_new.
  unfold seg. rewrite drop_0, take_ge; [done|]. by rewrite length_replicate.
Qed.

Lemma make_valid h n : valid (make h n).1 (make h n).2.
Proof.
  unfold valid, make; simpl. rewrite array_app_new, length_replicate. lia.
Qed.

Lemma contents_length h s : valid h s → length (contents h s) = len s.
Proof. intros [? ?]. apply seg_length. lia. Qed.

Lemma contents_frame h h' s :
  array h' (ptr s) = array h (ptr s) → contents h' s = contents h s.
Proof. unfold contents. by intros ->. Qed.

Lemma valid_frame h h' s :
  array h' (ptr s) = array h (ptr s) → valid h s → valid h' s.
Proof. unfold valid. by intros ->. Qed.

Lemma append_heap_length h s xs : length h ≤ length (append h s xs).1.
Proof.
  unfold append. case_decide; simpl.
  - by rewrite length_alter.
  - rewrite length_app. simpl. lia.
Qed.

(** An array other than the one behind [s] is left alone. *)
Lemma append_array_ne h s xs p :
  p ≠ ptr s → p < length h → array (append h s xs).1 p = array h p.
Proof.
  intros Hne Hp. unfold append. case_decide; simpl.
  - by apply array_alter_ne.
  - by apply array_app_l.
Qed.

Lemma append_ptr h s xs :
  ptr (append h s xs).2 = ptr s ∨ ptr (append h s xs).2 = length h.
Proof. unfold append. case_decide; simpl; auto. Qed.

Lemma append_len h s xs : len (append h s xs).2 = len s + length xs.
Proof. unfold append. by case_decide. Qed.

Lemma append_contents h s xs :
  valid h s →
  contents (append h s xs).1 (append h s xs).2 = contents h s ++ xs.
Proof.
  intros [Hlen Hcap]. unfold append. case_decide as Hfit; simpl.
  - unfold contents; simpl.
    destruct (decide (ptr s < length h)) as [Hp|Hp].
    + rewrite array_alter_eq by done.
      apply seg_store_at_extend. lia.
    + rewrite array_alter_out by lia.
      rewrite array_out in * by lia. simpl in *.
      destruct xs; simpl in *; [|lia].
      by rewrite app_nil_r, Nat.add_0_r.
  - unfold contents at 1; simpl. rewrite array_app_new.
    rewrite app_assoc. apply seg_0_app.
    rewrite length_app, contents_length; done.
Qed.

Lemma append_valid h s xs :
  valid h s → valid (append h s xs).1 (append h s xs).2.
Proof.
  intros [Hlen Hcap]. unfold append, valid. case_decide as Hfit; simpl.
  - split; [done|].
    destruct (decide (ptr s < length h)) as [Hp|Hp].
    + rewrite array_alter_eq by done. rewrite length_store_at; lia.
    + by rewrite array_alter_out by lia.
  - rewrite array_app_new, !length_app, length_replicate.
    rewrite contents_length by done. lia.
Qed.

(** The cells below the end of [s] survive an [append] to [s]: a slice of
    the same array that ends no later than [s] reads what it read. *)
Lemma append_contents_below h s xs t :
  valid h s → ptr t = ptr s → off t + len t ≤ off s + len s →
  contents (append h s xs).1 t = contents h t.
Proof.
  intros [Hlen Hcap] Hpt Hend. unfold append. case_decide as Hfit; simpl.
  - unfold contents. rewrite Hpt.
    destruct (decide (ptr s < length h)) as [Hp|Hp].
    + rewrite array_alter_eq by done. apply seg_store_at_below; lia.
    + by rewrite array_alter_out by lia.
  - destruct (decide (ptr s < length h)) as [Hp|Hp].
    + apply contents_frame. rewrite Hpt. by apply array_app_l.
    + unfold contents. rewrite Hpt.
      rewrite (array_out h) in * by lia. simpl in *.
      assert (len t = 0) as -> by lia. done.
Qed.

Lemma copy_contents h dst src :
  valid h dst → valid h src → ptr dst < length h → len dst = len src →
  contents (copy h dst src) dst = contents h src.
Proof.
  intros [Hld Hcd] Hsrc Hp Hlen. unfold copy, contents at 1.
  rewrite array_alter_eq by done.
  rewrite Hlen, Nat.min_id.
  pose proof (contents_length h src Hsrc) as Hl.
  rewrite take_ge by lia. rewrite <- Hl.
  apply seg_store_at_exact. lia.
Qed.

Lemma copy_array_ne h dst src p :
  p ≠ ptr dst → array (copy h dst src) p = array h p.
Proof. intros Hne. unfold copy. by apply array_alter_ne. Qed.

Lemma copy_heap_length h dst src : length (copy h dst src) = length h.
Proof. unfold copy. by rewrite length_alter. Qed.

Lemma append_ptr_lt h s xs :
  ptr s < length h → ptr (append h s xs).2 < length (append h s xs).1.
Proof.
  intros Hp. unfold append. case_decide; simpl.
  - by rewrite length_alter.
  - rewrite length_app. simpl. lia.
Qed.

Lemma append_array_length h s xs p :
  valid h s → length (array h p) ≤ length (array (append h s xs).1 p).
Proof.
  intros [Hlen Hcap]. unfold append. case_decide as Hfit; simpl.
  - destruct (decide (p = ptr s)) as [->|Hne].
    + destruct (decide (ptr s < length h)) as [Hp|Hp].
      * rewrite array_alter_eq by done. rewrite length_store_at; lia.
      * by rewrite array_alter_out by lia.
    + by rewrite array_alter_ne.
  - destruct (decide (p < length h)) as [Hp|Hp].
    + by rewrite array_app_l.
    + rewrite (array_out h) by lia. simpl. lia.
Qed.

(** Any slice that was valid stays valid across an [append]. *)
Lemma append_valid_other h s xs t :
  valid h s → valid h t → valid (append h s xs).1 t.
Proof.
  intros Hs [Hlen Hcap]. split; [done|].
  pose proof (append_array_length h s xs (ptr t) Hs). lia.
Qed.

Lemma reslice_contents h s lo hi :
  lo ≤ hi → hi ≤ len s →
  contents h (reslice s lo hi) = seg lo (hi - lo) (contents h s).
Proof.
  intros Hlo Hhi. unfold contents, seg, reslice; simpl.
  replace (len s) with (lo + (len s - lo)) by lia.
  rewrite <- take_drop_commute, take_take, drop_drop.
  f_equal. lia.
Qed.

Lemma reslice_valid h s lo hi :
  valid h s → lo ≤ hi → hi ≤ cap s → valid h (reslice s lo hi).
Proof. intros [? ?] ? ?. unfold valid, reslice; simpl. lia. Qed.

Lemma store_at_nil i a : store_at i [] a = a.
Proof.
  unfold store_at. simpl. rewrite Nat.add_0_r. apply take_drop.
Qed.

(** A slice copied into a new array of its own length: the first two
    statements of [Notify] and of every [Sort]. *)
Lemma make_copy h src :
  valid h src →
  let h1 := (make h (len src)).1 in
  let s := (make h (len src)).2 in
  contents (copy h1 s src) s = contents h src ∧
  ptr s = length h ∧ off s = 0 ∧ len s = len src ∧
  length (array (copy h1 s src) (length h)) = len src ∧
  length (copy h1 s src) = S (length h) ∧
  (∀ p, p < length h → array (copy h1 s src) p = array h p).
Proof.
  intros Hv. simpl.
  set (h1 := h ++ [replicate (len src) inhabitant]).
  set (s := Slice (length h) 0 (len src) (len src)).
  assert (length h1 = S (length h)) as Hlen1
    by (unfold h1; rewrite length_app; simpl; lia).
  assert (∀ p, p < length h → array (copy h1 s src) p = array h p) as Hold.
  { intros p Hlt. rewrite copy_array_ne by (simpl; lia).
    by apply array_app_l. }
  assert (length (copy h1 s src) = S (length h)) as Hlen2
    by (by rewrite copy_heap_length).
  destruct (decide (ptr src < length h)) as [Hp|Hp].
  - assert (array h1 (ptr src) = array h (ptr src)) as Hsrc
      by (by apply array_app_l).
    assert (valid h1 src) as Hv1 by (by apply (valid_frame h)).
    split_and!; try done.
    + rewrite copy_contents.
      * by apply contents_frame.
      * apply (make_valid h (len src)).
      * done.
      * simpl. lia.
      * done.
    + unfold copy. simpl. rewrite array_alter_eq by lia.
      unfold h1. rewrite array_app_new.
      rewrite Nat.min_id, take_ge by (by rewrite contents_length).
      rewrite length_store_at; rewrite ?length_replicate; [done|].
      rewrite contents_length by done. simpl. lia.
  - (* no array behind [src]: it is empty *)
    assert (len src = 0) as Hl0.
    { destruct Hv as [? Hcap]. rewrite array_out in Hcap by lia.
      simpl in Hcap. lia. }
    assert (copy h1 s src = h1) as Hcopy.
    { unfold copy. simpl. rewrite Hl0. simpl.
      apply list_alter_id. intros a. apply store_at_nil. }
    split_and!; try done.
    + unfold contents, seg. simpl. by rewrite Hl0.
    + rewrite Hcopy. unfold h1. by rewrite array_app_new, length_replicate.
Qed.

End Slices.

(** ** Calls that may panic *)

(** A Go call either returns a value and leaves a state behind, or panics
    and unwinds; what it had written before the panic stays written, so a
    panic too leaves a state behind. *)
Inductive outcome (S A : Type) : Type :=
  | Ok (a : A) (s : S)
  | Panic (msg : string) (s : S).
Arguments Ok {S A} a s.
Arguments Panic {S A} msg s.

Definition M (S A : Type) : Type := S → outcome S A.

#[global] Instance M_ret {S} : MRet (M S) := λ A a s, Ok a s.
#[global] Instance M_bind {S} : MBind (M S) := λ A B f c s,
  match c s with
  | Ok a s' => f a s'
  | Panic msg s' => Panic msg s'
  end.

Definition panic {S A} (msg : string) : M S A := λ s, Panic msg s.
Definition gets {S A} (f : S → A) : M S A := λ s, Ok (f s) s.
Definition modify {S} (f : S → S) : M S unit := λ s, Ok tt (f s).

(** Runs a call on a component of a larger state. *)
Definition zoom {S T A} (get : T → S) (set : S → T → T) (c : M S A) : M T A :=
  λ t, match c (get t) with
       | Ok a s => Ok a (set s t)
       | Panic msg s => Panic msg (set s t)
       end.

(** A byte slice by value; [None] is the [nil] slice. *)
Definition bytes : Type := option (list byte).

Definition bytes_of (b : bytes) : list byte := default [] b.

#[global] Instance byte_eq_decision : EqDecision byte := Byte.byte_eq_dec.

(** ** Package image *)

Module image.

Record ImageMetadata := mkImageMetadata {
  ID : string;
  Width : Z;
  Height : Z;
  CapturedAt : Z;   (* an instant, in nanoseconds after the zero [time.Time] *)
  Rating : Z;
  Filters : slice;  (* a [[]string] header *)
  Format : string;
  Description : string
}.

Definition with_ID (x : string) (m : ImageMetadata) : ImageMetadata :=
  mkImageMetadata x (Width m) (Height m) (CapturedAt m) (Rating m)
    (Filters m) (Format m) (Description m).

Definition with_Filters (fs : slice) (m : ImageMetadata) : ImageMetadata :=
  mkImageMetadata (ID m) (Width m) (Height m) (CapturedAt m) (Rating m)
    fs (Format m) (Description m).

(** The zero value of the struct. *)
Definition zeroMetadata : ImageMetadata :=
  mkImageMetadata "" 0 0 0 0 nil_slice "" "".

Record BasicImage := mkBasicImage {
  id : string;
  data : bytes;
  metadata : ImageMetadata
}.

(** A value of the interface [Image]: a [*BasicImage], which is the address
    of a mutable object, or a [*FilterDecorator], whose two fields are set
    once by the constructor and never written again. *)
Inductive Image :=
  | BasicImagePtr (p : nat)
  | FilterDecoratorPtr (wrapped : Image) (filter : string).

(** The memory the package works on: the backing arrays of the [Filters]
    slices and the [BasicImage] objects. *)
Record Mem := mkMem {
  slices : heap string;
  objects : list BasicImage
}.

Definition with_slices (h : heap string) (m : Mem) : Mem :=
  mkMem h (objects m).
Definition with_objects (o : list BasicImage) (m : Mem) : Mem :=
  mkMem (slices m) o.

Definition nil_dereference : string :=
  "invalid memory address or nil pointer dereference".

Definition deref (p : nat) : M Mem BasicImage := λ m,
  match objects m !! p with
  | Some b => Ok b m
  | None => Panic nil_dereference m
  end.

Definition NewBasicImage (id : string) (data : bytes)
    (metadata : ImageMetadata) : M Mem Image := λ m,
  let metadata := with_ID id metadata in
  Ok (BasicImagePtr (length (objects m)))
     (with_objects (objects m ++ [mkBasicImage id data metadata]) m).

Definition NewFilterDecorator (img : option Image) (filter : string)
    : M Mem Image :=
  match img with
  | None => panic "image cannot be nil"
  | Some img =>
      if decide (filter = "") then panic "filter cannot be empty"
      else mret (FilterDecoratorPtr img filter)
  end.

Section methods.
Context `{!GrowthPolicy}.

Fixpoint ID_ (img : Image) : M Mem string :=
  match img with
  | BasicImagePtr p => b ← deref p; mret (id b)
  | FilterDecoratorPtr wrapped _ => ID_ wrapped
  end.

Fixpoint Data (img : Image) : M Mem bytes :=
  match img with
  | BasicImagePtr p => b ← deref p; mret (data b)
  | FilterDecoratorPtr wrapped _ => Data wrapped
  end.

Fixpoint Metadata (img : Image) : M Mem ImageMetadata :=
  match img with
  | BasicImagePtr p => b ← deref p; mret (metadata b)
  | FilterDecoratorPtr wrapped filter =>
      meta ← Metadata wrapped;
      fs ← zoom slices with_slices
             (λ h, let (h', fs) := append h (Filters meta) [filter] in
                   Ok fs h');
      mret (with_Filters fs meta)
  end.

Fixpoint SetData (img : Image) (d : bytes) : M Mem unit :=
  match img with
  | BasicImagePtr p =>
      b ← deref p;
      modify (λ m, with_objects
        (<[p := mkBasicImage (id b) d (metadata b)]> (objects m)) m)
  | FilterDecoratorPtr wrapped _ => SetData wrapped d
  end.

Fixpoint SetMetadata (img : Image) (meta : ImageMetadata) : M Mem unit :=
  match img with
  | BasicImagePtr p =>
      b ← deref p;
      modify (λ m, with_objects
        (<[p := mkBasicImage (id b) (data b) meta]> (objects m)) m)
  | FilterDecoratorPtr wrapped _ => SetMetadata wrapped meta
  end.

(** The strings seen in the [Filters] of a descriptor. *)
Definition history (m : Mem) (meta : ImageMetadata) : list string :=
  contents (slices m) (Filters meta).

(** The innermost object of a chain and the names wrapped around it,
    innermost first. *)
Fixpoint base (img : Image) : nat :=
  match img with
  | BasicImagePtr p => p
  | FilterDecoratorPtr wrapped _ => base wrapped
  end.

Fixpoint names (img : Image) : list string :=
  match img with
  | BasicImagePtr _ => []
  | FilterDecoratorPtr wrapped filter => names wrapped ++ [filter]
  end.

Lemma with_Filters_id meta : with_Filters (Filters meta) meta = meta.
Proof. by destruct meta. Qed.

Lemma with_slices_id m : with_slices (slices m) m = m.
Proof. by destruct m. Qed.

Lemma ID_chain img m b :
  objects m !! base img = Some b → ID_ img m = Ok (id b) m.
Proof.
  induction img as [p|w IH f]; simpl; intros Hb; [|by apply IH].
  unfold mbind, M_bind, deref. by rewrite Hb.
Qed.

Lemma Data_chain img m b :
  objects m !! base img = Some b → Data img m = Ok (data b) m.
Proof.
  induction img as [p|w IH f]; simpl; intros Hb; [|by apply IH].
  unfold mbind, M_bind, deref. by rewrite Hb.
Qed.

(** Where the slice read through a chain lies with respect to the slice
    [sb] stored in the base object: still in the stored array, from the
    same offset, or in an array allocated since the read began. *)
Definition grown_from (n0 : nat) (sb fs : slice) : Prop :=
  (ptr fs = ptr sb ∧ off fs = off sb ∧ len sb ≤ len fs) ∨ n0 ≤ ptr fs.

Lemma contents_len_0 (h : heap string) s : len s = 0 → contents h s = [].
Proof. intros Hl. unfold contents, seg. by rewrite Hl. Qed.

(** Reading the descriptor of a chain: the stored descriptor with the
    names of the chain after the stored history. Only the arrays change;
    what the stored slice shows does not. *)
Lemma Metadata_chain img m b :
  objects m !! base img = Some b →
  valid (slices m) (Filters (metadata b)) →
  ∃ fs h,
    Metadata img m = Ok (with_Filters fs (metadata b)) (with_slices h m) ∧
    valid h fs ∧
    contents h fs = contents (slices m) (Filters (metadata b)) ++ names img ∧
    length (slices m) ≤ length h ∧
    grown_from (length (slices m)) (Filters (metadata b)) fs ∧
    contents h (Filters (metadata b))
      = contents (slices m) (Filters (metadata b)) ∧
    valid h (Filters (metadata b)).
Proof.
  intros Hb Hvb. set (sb := Filters (metadata b)) in *.
  induction img as [p|w IH f]; simpl in *.
  - exists sb, (slices m). unfold mbind, M_bind, deref. rewrite Hb.
    unfold mret, M_ret. subst sb.
    rewrite with_Filters_id, with_slices_id, app_nil_r.
    split_and!; try done. by left.
  - destruct (IH Hb) as (fs & h & Hread & Hv & Hc & Hlen & Hg & Hsb & Hvsb).
    unfold mbind, M_bind. rewrite Hread. unfold zoom. simpl.
    pose proof (append_valid_other h fs [f] sb Hv Hvsb) as Hvsb'.
    pose proof (append_contents h fs [f] Hv) as Hc'.
    pose proof (append_valid h fs [f] Hv) as Hv'.
    pose proof (append_heap_length h fs [f]) as Hlen'.
    pose proof (append_ptr h fs [f]) as Hptr.
    pose proof (append_len h fs [f]) as Hl'.
    assert (contents (append h fs [f]).1 sb = contents h sb) as Hsb'.
    { destruct (decide (len sb = 0)) as [Hz|Hnz].
      { by rewrite !contents_len_0. }
      assert (ptr sb < length (slices m)) as Hpb.
      { destruct (decide (ptr sb < length (slices m))); [done|].
        destruct Hvb as [? Hcap]. rewrite array_out in Hcap by lia.
        simpl in Hcap. lia. }
      destruct Hg as [(Hp & Ho & Hle)|Hfresh].
      - apply append_contents_below; [done|done|lia].
      - apply contents_frame. apply append_array_ne; lia. }
    destruct (append h fs [f]) as [h' fs'] eqn:Happ. simpl in *.
    exists fs', h'. unfold mret, M_ret. simpl.
    split_and!.
    + done.
    + done.
    + by rewrite Hc', Hc, app_assoc.
    + lia.
    + clear Hptr. unfold append in Happ.
      case_decide; inversion Happ; subst fs'; [|right; simpl; lia].
      destruct Hg as [(Hp0 & Ho & Hle)|Hfresh]; [left|right]; simpl in *;
        auto with lia.
    + by rewrite Hsb', Hsb.
    + done.
Qed.

(** What a wrapper shows does not depend on the wrappers read before it:
    after the descriptor of any chain [other] around the same base has been
    read, reading through [img] still gives the stored history followed by
    the names of [img]. *)
Lemma Metadata_reread img other m b meta m1 :
  objects m !! base img = Some b →
  base other = base img →
  valid (slices m) (Filters (metadata b)) →
  Metadata other m = Ok meta m1 →
  ∃ meta' m2,
    Metadata img m1 = Ok meta' m2 ∧
    history m2 meta' = contents (slices m) (Filters (metadata b)) ++ names img.
Proof.
  intros Hb Hsame Hv Hother.
  destruct (Metadata_chain other m b)
    as (fs & h & Hread & _ & _ & _ & _ & Hsb & Hvsb);
    [by rewrite Hsame|done|].
  rewrite Hread in Hother. injection Hother as <- <-.
  destruct (Metadata_chain img (with_slices h m) b)
    as (fs' & h' & Hread' & _ & Hc & _);
    [done|done|].
  eexists _, _. split; [exact Hread'|].
  unfold history. simpl in *. by rewrite Hc, Hsb.
Qed.

(** When the stored slice is full, no array that existed before the read
    is written: every wrapper read lands in an array allocated by the read
    itself. This is the case of every object built by [CreatePhoto] and by
    the decoders, whose [Filters] have capacity 0. *)
Lemma Metadata_chain_full img m b :
  objects m !! base img = Some b →
  len (Filters (metadata b)) = cap (Filters (metadata b)) →
  ∃ fs h,
    Metadata img m = Ok (with_Filters fs (metadata b)) (with_slices h m) ∧
    length (slices m) ≤ length h ∧
    (∀ p, p < length (slices m) → array h p = array (slices m) p) ∧
    (names img ≠ [] → length (slices m) ≤ ptr fs).
Proof.
  intros Hb Hfull. set (sb := Filters (metadata b)) in *.
  assert (∃ fs h,
    Metadata img m = Ok (with_Filters fs (metadata b)) (with_slices h m) ∧
    length (slices m) ≤ length h ∧
    (∀ p, p < length (slices m) → array h p = array (slices m) p) ∧
    ((fs = sb ∧ h = slices m ∧ names img = []) ∨
     (length (slices m) ≤ ptr fs ∧ names img ≠ [])))
    as (fs & h & ? & ? & ? & Hc).
  { induction img as [p|w IH f]; simpl in *.
    - exists sb, (slices m). unfold mbind, M_bind, deref. rewrite Hb.
      unfold mret, M_ret. subst sb.
      rewrite with_Filters_id, with_slices_id. split_and!; auto.
    - destruct (IH Hb) as (fs & h & Hread & Hlen & Harr & Hc).
      unfold mbind, M_bind. rewrite Hread. unfold zoom. simpl.
      pose proof (append_heap_length h fs [f]) as Hlen'.
      destruct (append h fs [f]) as [h' fs'] eqn:Happ. simpl in *.
      exists fs', h'. unfold mret, M_ret. simpl.
      assert (names w ++ [f] ≠ []) as Hne by (by destruct (names w)).
      split_and!; [done|lia| |].
      + intros p Hp. rewrite <- (Harr p Hp).
        destruct Hc as [(-> & -> & _)|[Hfresh _]].
        * unfold append in Happ. case_decide; [simpl in *; lia|].
          inversion Happ. by apply array_app_l.
        * replace h' with (append h fs [f]).1 by (by rewrite Happ).
          apply append_array_ne; lia.
      + right. split; [|done].
        destruct Hc as [(-> & -> & _)|[Hfresh _]];
          unfold append in Happ; case_decide; inversion Happ; subst;
          simpl in *; lia. }
  exists fs, h. split_and!; try done.
  intros Hne. destruct Hc as [(_ & _ & ?)|[? _]]; done.
Qed.

(** A base object whose [Filters] is [make([]string, 0, 1)]: one spare
    cell behind an empty history. *)
Definition spare_base : M Mem Image :=
  fs ← zoom slices with_slices
         (λ h, let (h', s) := make h 1 in Ok (reslice s 0 0) h');
  NewBasicImage "photo" None (with_Filters fs zeroMetadata).

(** Two wrappers around that base: the descriptor read through the first
    is looked at before and after the second one is read. *)
Definition two_wrappers : M Mem (list string * list string) :=
  b ← spare_base;
  w1 ← NewFilterDecorator (Some b) "grayscale";
  m1 ← Metadata w1;
  before ← gets (λ m, history m m1);
  w2 ← NewFilterDecorator (Some b) "sepia";
  _ ← Metadata w2;
  after ← gets (λ m, history m m1);
  mret (before, after).

(** C4 on this input. The descriptor read through the first wrapper shows
    ["grayscale"]; once the descriptor of the second wrapper has been read,
    the same descriptor shows ["sepia"]: both reads appended in place, into
    the spare cell of the array stored in the base object. *)
Theorem two_wrappers_alias :
  ∃ m, two_wrappers (mkMem [] []) = Ok (["grayscale"], ["sepia"]) m.
Proof. eexists. vm_compute. reflexivity. Qed.

(** Whatever the chain, the fields of the descriptor other than [Filters]
    are those stored in the innermost object, and no object is written. *)
Lemma Metadata_stored img : ∀ m meta m',
  Metadata img m = Ok meta m' →
  ∃ b, objects m !! base img = Some b ∧
       with_Filters (Filters (metadata b)) meta = metadata b ∧
       objects m' = objects m.
Proof.
  induction img as [p|w IH f]; intros m meta m'; simpl.
  - unfold mbind, M_bind, deref. destruct (objects m !! p) as [b|]; [|done].
    intros [= <- <-]. exists b. by rewrite with_Filters_id.
  - unfold mbind, M_bind.
    destruct (Metadata w m) as [meta0 m0|] eqn:Hw; [|done].
    destruct (IH _ _ _ Hw) as (b & Hb & Hfields & Hobj).
    unfold zoom. destruct (append _ _ _) as [h fs]. simpl.
    intros [= <- <-]. exists b. split_and!; [done| |done].
    rewrite <- Hfields. by destruct meta0.
Qed.

End methods.

(** *** Reading and writing through wrappers *)

Section image_facts.
Context `{!GrowthPolicy}.

Lemma Metadata_returns img m b :
  objects m !! base img = Some b →
  ∃ meta m', Metadata img m = Ok meta m'.
Proof.
  intros Hb. induction img as [p|w IH f]; simpl in *.
  - unfold mbind, M_bind, deref. rewrite Hb. by eexists _, _.
  - destruct (IH Hb) as (meta & m' & Hread).
    unfold mbind, M_bind. rewrite Hread. unfold zoom.
    destruct (append _ _ _). by eexists _, _.
Qed.

Lemma SetData_chain img d m b :
  objects m !! base img = Some b →
  SetData img d m
  = Ok tt (with_objects
             (<[base img := mkBasicImage (id b) d (metadata b)]> (objects m))
             m).
Proof.
  induction img as [p|w IH f]; simpl; intros Hb; [|by apply IH].
  unfold mbind, M_bind, deref. by rewrite Hb.
Qed.

Lemma SetMetadata_chain img meta m b :
  objects m !! base img = Some b →
  SetMetadata img meta m
  = Ok tt (with_objects
             (<[base img := mkBasicImage (id b) (data b) meta]> (objects m))
             m).
Proof.
  induction img as [p|w IH f]; simpl; intros Hb; [|by apply IH].
  unfold mbind, M_bind, deref. by rewrite Hb.
Qed.

(** Wrapping changes nothing but the filter history: through any chain of
    decorators, [ID] and [Data] are those of the innermost image and leave
    the memory alone, and [Metadata] returns the stored descriptor in every
    field other than [Filters], without writing any object. *)
Theorem wrappers_change_only_Filters img m b :
  objects m !! base img = Some b →
  ID_ img m = Ok (id b) m ∧
  Data img m = Ok (data b) m ∧
  ∃ meta m',
    Metadata img m = Ok meta m' ∧ objects m' = objects m ∧
    ID meta = ID (metadata b) ∧ Width meta = Width (metadata b) ∧
    Height meta = Height (metadata b) ∧
    CapturedAt meta = CapturedAt (metadata b) ∧
    Rating meta = Rating (metadata b) ∧ Format meta = Format (metadata b) ∧
    Description meta = Description (metadata b).
Proof.
  intros Hb. split_and!; [by apply ID_chain|by apply Data_chain|].
  destruct (Metadata_returns img m b Hb) as (meta & m' & Hread).
  destruct (Metadata_stored img m meta m' Hread) as (b' & Hb' & Hf & Hobj).
  assert (b' = b) as -> by congruence.
  exists meta, m'. rewrite <- Hf. by destruct meta.
Qed.

(** [SetData] through any wrapper replaces the payload of the innermost
    image: every wrapper around the same image then reads the new payload,
    while the ID, the stored descriptor, the other images and the filter
    arrays stay as they were. *)
Theorem SetData_through_wrapper img d m b :
  objects m !! base img = Some b →
  ∃ m', SetData img d m = Ok tt m' ∧
        (∀ other, base other = base img → Data other m' = Ok d m') ∧
        ID_ img m' = Ok (id b) m' ∧
        objects m' !! base img = Some (mkBasicImage (id b) d (metadata b)) ∧
        (∀ p, p ≠ base img → objects m' !! p = objects m !! p) ∧
        slices m' = slices m.
Proof.
  intros Hb. rewrite (SetData_chain img d m b Hb). eexists. split; [done|].
  set (m' := with_objects _ m).
  assert (objects m' !! base img = Some (mkBasicImage (id b) d (metadata b)))
    as Hnew.
  { unfold m'. simpl. apply list_lookup_insert_eq.
    by apply lookup_lt_Some in Hb. }
  split_and!; try done.
  - intros other Hsame.
    apply (Data_chain other m' (mkBasicImage (id b) d (metadata b))).
    by rewrite Hsame.
  - by apply (ID_chain img m' (mkBasicImage (id b) d (metadata b))).
  - intros p Hne. unfold m'. simpl. by rewrite list_lookup_insert_ne.
Qed.

Lemma SetMetadata_stores img meta m b :
  objects m !! base img = Some b →
  ∃ m1, SetMetadata img meta m = Ok tt m1 ∧
        objects m1 !! base img = Some (mkBasicImage (id b) (data b) meta) ∧
        slices m1 = slices m.
Proof.
  intros Hb. rewrite (SetMetadata_chain img meta m b Hb).
  eexists. split_and!; [done| |done].
  simpl. apply list_lookup_insert_eq. by apply lookup_lt_Some in Hb.
Qed.

(** [SetMetadata] through a wrapper stores the descriptor in the innermost
    image as it is: [ID] keeps returning the ID given at creation even when
    the descriptor carries another one, and a later [Metadata] through the
    wrapper shows the new descriptor's ID and its filters followed by the
    names of the wrappers. *)
Theorem SetMetadata_through_wrapper img meta m b :
  objects m !! base img = Some b →
  valid (slices m) (Filters meta) →
  ∃ m1 meta' m2,
    SetMetadata img meta m = Ok tt m1 ∧
    ID_ img m1 = Ok (id b) m1 ∧
    Data img m1 = Ok (data b) m1 ∧
    Metadata img m1 = Ok meta' m2 ∧
    ID meta' = ID meta ∧
    history m2 meta' = history m meta ++ names img.
Proof.
  intros Hb Hv.
  destruct (SetMetadata_stores img meta m b Hb) as (m1 & Hset & Hnew & Hs).
  destruct (Metadata_chain img m1 _ Hnew) as (fs & h & Hread & _ & Hc & _).
  { simpl. by rewrite Hs. }
  eexists m1, _, _. split_and!; [done| | |exact Hread|done|].
  - by apply (ID_chain img m1 (mkBasicImage (id b) (data b) meta)).
  - by apply (Data_chain img m1 (mkBasicImage (id b) (data b) meta)).
  - unfold history. simpl in *. by rewrite Hc, Hs.
Qed.

(** Writing back what was just read is not neutral: after
    [w.SetMetadata(w.Metadata())] through a wrapper, the names of the
    wrappers are part of the stored history, and reading through the same
    wrapper shows them twice. *)
Theorem SetMetadata_of_Metadata_repeats_names img m b :
  objects m !! base img = Some b →
  valid (slices m) (Filters (metadata b)) →
  ∃ meta0 m0 m1 meta1 m2,
    Metadata img m = Ok meta0 m0 ∧
    SetMetadata img meta0 m0 = Ok tt m1 ∧
    Metadata img m1 = Ok meta1 m2 ∧
    history m2 meta1 = (history m (metadata b) ++ names img) ++ names img.
Proof.
  intros Hb Hv.
  destruct (Metadata_chain img m b Hb Hv)
    as (fs & h & Hread & Hvfs & Hc & _).
  set (meta0 := with_Filters fs (metadata b)) in *.
  set (m0 := with_slices h m) in *.
  assert (objects m0 !! base img = Some b) as Hb0 by done.
  destruct (SetMetadata_stores img meta0 m0 b Hb0) as (m1 & Hset & Hnew & Hs).
  destruct (Metadata_chain img m1 _ Hnew) as (fs1 & h1 & Hread1 & _ & Hc1 & _).
  { simpl. by rewrite Hs. }
  eexists meta0, m0, m1, _, _. split_and!; [done|done|exact Hread1|].
  unfold history. simpl in *. by rewrite Hc1, Hs, Hc.
Qed.

End image_facts.

(** *** One photo under two wrappers *)

Definition plain : BasicImage :=
  mkBasicImage "photo-3" (Some [x0a; x0b])
    (mkImageMetadata "photo-3" 1920 1080 5 4 nil_slice "JPEG" "Portrait photo").

Definition one_photo : Mem := mkMem [] [plain].

Definition twice_wrapped : Image :=
  FilterDecoratorPtr (FilterDecoratorPtr (BasicImagePtr 0) "grayscale") "sepia".

Lemma wrappers_change_only_Filters_witness :
  ID_ twice_wrapped one_photo = Ok "photo-3" one_photo ∧
  Data twice_wrapped one_photo = Ok (Some [x0a; x0b]) one_photo ∧
  ∃ meta m',
    @Metadata doubling twice_wrapped one_photo = Ok meta m' ∧
    objects m' = objects one_photo ∧
    ID meta = "photo-3" ∧ Width meta = 1920%Z ∧ Height meta = 1080%Z ∧
    CapturedAt meta = 5%Z ∧ Rating meta = 4%Z ∧ Format meta = "JPEG" ∧
    Description meta = "Portrait photo".
Proof.
  exact (@wrappers_change_only_Filters doubling twice_wrapped one_photo plain
           eq_refl).
Defined.

Lemma SetData_through_wrapper_witness :
  ∃ m', SetData twice_wrapped (Some [xff]) one_photo = Ok tt m' ∧
        (∀ other, base other = 0 → Data other m' = Ok (Some [xff]) m') ∧
        ID_ twice_wrapped m' = Ok "photo-3" m' ∧
        objects m' !! 0
          = Some (mkBasicImage "photo-3" (Some [xff]) (metadata plain)) ∧
        (∀ p, p ≠ 0 → objects m' !! p = objects one_photo !! p) ∧
        slices m' = slices one_photo.
Proof.
  exact (SetData_through_wrapper twice_wrapped (Some [xff]) one_photo plain
           eq_refl).
Defined.

Lemma one_photo_valid : valid (slices one_photo) (Filters (metadata plain)).
Proof. unfold valid. simpl. lia. Qed.

Lemma SetMetadata_through_wrapper_witness :
  ∃ m1 meta' m2,
    SetMetadata twice_wrapped (with_ID "other" (metadata plain)) one_photo
      = Ok tt m1 ∧
    ID_ twice_wrapped m1 = Ok "photo-3" m1 ∧
    Data twice_wrapped m1 = Ok (Some [x0a; x0b]) m1 ∧
    @Metadata doubling twice_wrapped m1 = Ok meta' m2 ∧
    ID meta' = "other" ∧
    history m2 meta'
      = history one_photo (with_ID "other" (metadata plain))
        ++ ["grayscale"; "sepia"].
Proof.
  exact (@SetMetadata_through_wrapper doubling twice_wrapped
           (with_ID "other" (metadata plain)) one_photo plain
           eq_refl one_photo_valid).
Defined.

Lemma SetMetadata_of_Metadata_repeats_names_witness :
  ∃ meta0 m0 m1 meta1 m2,
    @Metadata doubling twice_wrapped one_photo = Ok meta0 m0 ∧
    SetMetadata twice_wrapped meta0 m0 = Ok tt m1 ∧
    @Metadata doubling twice_wrapped m1 = Ok meta1 m2 ∧
    history m2 meta1
      = (history one_photo (metadata plain) ++ ["grayscale"; "sepia"])
        ++ ["grayscale"; "sepia"].
Proof.
  exact (@SetMetadata_of_Metadata_repeats_names doubling twice_wrapped
           one_photo plain eq_refl one_photo_valid).
Defined.

End image.


(** ** Package events *)

Module events.

Definition EventType : Type := string.

Definition EventImageCaptured : EventType := "ImageCaptured".
Definition EventImageProcessed : EventType := "ImageProcessed".
Definition EventGallerySorted : EventType := "GallerySorted".
Definition EventImageEncoded : EventType := "ImageEncoded".

(** [Image] is [None] for the [nil] interface value. No code of the program
    stores anything in [Metadata]; its values are kept as strings. *)
Record Event := mkEvent {
  Type_ : EventType;
  Image : option image.Image;
  Message : string;
  Metadata : gmap string string
}.

Definition NewEvent (eventType : EventType) (img : option image.Image)
    (message : string) : Event :=
  mkEvent eventType img message ∅.

(** An [Observer] value is a reference to the observing object: every
    implementation has pointer receivers, so [==] on two observers compares
    addresses. *)
Definition Observer : Type := nat.

(** What [OnEvent] of an observer does to the bus that is notifying it: any
    sequence of [Register], [Unregister] and [ObserverCount] calls, the later
    ones free to depend on the counts read so far. *)
Inductive script :=
  | Return
  | CallRegister (o : Observer) (k : script)
  | CallUnregister (o : Observer) (k : script)
  | CallObserverCount (k : nat → script).

(** The [EventBus] object with the arrays its slice lives in, and the calls
    of [OnEvent] made so far, oldest first. *)
Record World := mkWorld {
  arrays : heap Observer;
  observers : slice;
  calls : list (Observer * Event)
}.

Definition registered (w : World) : list Observer :=
  contents (arrays w) (observers w).

Definition wf (w : World) : Prop :=
  valid (arrays w) (observers w) ∧ ptr (observers w) < length (arrays w).

(** The interface [Subject], over the state [B] of the implementation.
    Observers are taken not to panic, so [Notify] always returns. *)
Record Subject (B : Type) := mkSubject {
  Subject_Register : Observer → B → B;
  Subject_Unregister : Observer → B → B;
  Subject_Notify : Event → B → B
}.
Arguments Subject_Register {B} _ _ _.
Arguments Subject_Unregister {B} _ _ _.
Arguments Subject_Notify {B} _ _ _.

Section bus.
Context `{!GrowthPolicy}.
Context (OnEvent : Observer → Event → script).

Definition NewEventBus : World :=
  let (h, s) := make [] 0 in mkWorld h s [].

Definition Register (observer : Observer) (w : World) : World :=
  let (h, s) := append (arrays w) (observers w) [observer] in
  mkWorld h s (calls w).

(** The loop of [Unregister], at index [i] with [rest] still to visit. *)
Fixpoint Unregister_loop (observer : Observer) (w : World) (i : nat)
    (rest : list Observer) : World :=
  match rest with
  | [] => w
  | obs :: rest =>
      if decide (obs = observer) then
        let s := observers w in
        let (h, s') :=
          append (arrays w) (reslice s 0 i)
                 (contents (arrays w) (reslice s (i + 1) (len s))) in
        mkWorld h s' (calls w)
      else Unregister_loop observer w (S i) rest
  end.

Definition Unregister (observer : Observer) (w : World) : World :=
  Unregister_loop observer w 0 (registered w).

Definition ObserverCount (w : World) : nat := len (observers w).

Fixpoint run (s : script) (w : World) : World :=
  match s with
  | Return => w
  | CallRegister o k => run k (Register o w)
  | CallUnregister o k => run k (Unregister o w)
  | CallObserverCount k => run (k (ObserverCount w)) w
  end.

(** The loop of [Notify] over the copy: the element is read from memory when
    its turn comes. *)
Fixpoint Notify_loop (event : Event) (copied : slice) (i todo : nat)
    : M World unit :=
  match todo with
  | 0 => mret tt
  | S todo => λ w,
      match contents (arrays w) copied !! i with
      | None => Panic "index out of range" w
      | Some observer =>
          let w := mkWorld (arrays w) (observers w)
                           (calls w ++ [(observer, event)]) in
          Notify_loop event copied (S i) todo (run (OnEvent observer event) w)
      end
  end.

Definition Notify (event : Event) : M World unit := λ w,
  let (h, copied) := make (arrays w) (len (observers w)) in
  let h := copy h copied (observers w) in
  Notify_loop event copied 0 (len copied) (mkWorld h (observers w) (calls w)).

(** *** The registration set under [Register] and [Unregister] *)

(** [l] without the first element equal to [o], in the words of the
    contract of [Unregister]. *)
Fixpoint remove_first (o : Observer) (l : list Observer) : list Observer :=
  match l with
  | [] => []
  | x :: l => if decide (x = o) then l else x :: remove_first o l
  end.

Lemma remove_first_absent o l : o ∉ l → remove_first o l = l.
Proof.
  induction l as [|x l IH]; simpl; [done|]. intros Hn.
  apply not_elem_of_cons in Hn as [? ?]. case_decide; [congruence|].
  f_equal. by apply IH.
Qed.

Lemma remove_first_present o l :
  o ∈ l →
  ∃ l1 l2, l = l1 ++ (o :: l2) ∧ (o ∉ l1) ∧ remove_first o l = l1 ++ l2.
Proof.
  induction l as [|x l IH]; simpl; intros Hin.
  - by apply elem_of_nil in Hin.
  - case_decide as Hx.
    + subst x. exists [], l. split_and!; try done. apply not_elem_of_nil.
    + apply elem_of_cons in Hin as [?|Hin]; [congruence|].
      destruct (IH Hin) as (l1 & l2 & -> & Hn & ->).
      exists (x :: l1), l2. split_and!; try done.
      apply not_elem_of_cons. split; [congruence|done].
Qed.

(** A cell [p] of the heap that the bus does not own and a call cannot
    reach: some array other than the one behind [observers]. *)
Definition apart (p : nat) (w : World) : Prop :=
  wf w ∧ p ≠ ptr (observers w) ∧ p < length (arrays w).

Lemma NewEventBus_wf : wf NewEventBus.
Proof. unfold wf, valid. simpl. lia. Qed.

Lemma Register_spec o w :
  wf w →
  registered (Register o w) = registered w ++ [o] ∧
  calls (Register o w) = calls w ∧ wf (Register o w).
Proof.
  intros [Hv Hp]. unfold Register, registered, wf.
  pose proof (append_contents (arrays w) (observers w) [o] Hv).
  pose proof (append_valid (arrays w) (observers w) [o] Hv).
  pose proof (append_ptr_lt (arrays w) (observers w) [o] Hp).
  by destruct (append (arrays w) (observers w) [o]).
Qed.

Lemma Register_apart p o w :
  apart p w →
  apart p (Register o w) ∧
  array (arrays (Register o w)) p = array (arrays w) p.
Proof.
  intros (Hwf & Hne & Hlt).
  destruct (Register_spec o w Hwf) as (_ & _ & Hwf').
  destruct Hwf as [Hv Hp]. unfold apart. unfold Register in *.
  pose proof (append_ptr (arrays w) (observers w) [o]).
  pose proof (append_heap_length (arrays w) (observers w) [o]).
  pose proof (append_array_ne (arrays w) (observers w) [o] p Hne Hlt).
  destruct (append (arrays w) (observers w) [o]); simpl in *.
  split_and!; [done|lia|lia|done].
Qed.

Lemma Unregister_loop_spec o w pre rest :
  wf w → registered w = pre ++ rest →
  let w' := Unregister_loop o w (length pre) rest in
  registered w' = pre ++ remove_first o rest ∧
  calls w' = calls w ∧ wf w' ∧
  ptr (observers w') = ptr (observers w) ∧
  length (arrays w') = length (arrays w) ∧
  (∀ p, p ≠ ptr (observers w) → array (arrays w') p = array (arrays w) p) ∧
  (o ∉ rest → w' = w).
Proof.
  intros Hwf. revert pre.
  induction rest as [|obs rest IH]; intros pre Hreg; simpl.
  { split_and!; done. }
  case_decide as Hobs.
  - subst obs. destruct Hwf as [Hv Hp].
    set (s := observers w) in *. set (h := arrays w) in *.
    pose proof (contents_length h s Hv) as Hlen.
    change (contents h s) with (registered w) in Hlen. rewrite Hreg in Hlen.
    rewrite length_app in Hlen. simpl in Hlen.
    assert (contents h (reslice s 0 (length pre)) = pre) as Hdst.
    { rewrite reslice_contents by lia.
      change (contents h s) with (registered w). rewrite Hreg.
      unfold seg. rewrite drop_0, Nat.sub_0_r. apply take_app_length. }
    assert (contents h (reslice s (length pre + 1) (len s)) = rest) as Hsrc.
    { rewrite reslice_contents by lia.
      change (contents h s) with (registered w). rewrite Hreg.
      unfold seg. rewrite (cons_middle o), app_assoc.
      rewrite drop_app_length' by (rewrite length_app; simpl; lia).
      apply take_ge. lia. }
    assert (valid h (reslice s 0 (length pre))) as Hvd.
    { apply reslice_valid; [done|lia|]. destruct Hv. lia. }
    rewrite Hsrc.
    pose proof (append_contents h _ rest Hvd) as Hc.
    pose proof (append_valid h _ rest Hvd) as Hv'.
    rewrite Hdst in Hc. unfold append in *.
    case_decide as Hfit; simpl in *; [|destruct Hv; lia].
    unfold registered, wf; simpl.
    split_and!; try done.
    + by rewrite length_alter.
    + by rewrite length_alter.
    + intros p Hne. by apply array_alter_ne.
    + intros Hn. exfalso. apply Hn. by left.
  - specialize (IH (pre ++ [obs])).
    rewrite length_app, Nat.add_1_r in IH. simpl in IH.
    rewrite <- app_assoc in IH. simpl in IH.
    destruct (IH Hreg) as (H0 & ? & ? & ? & ? & ? & Hsame).
    split_and!; try done.
    + by rewrite H0, <- app_assoc.
    + intros Hn. apply Hsame. by apply not_elem_of_cons in Hn as [_ ?].
Qed.

Lemma Unregister_spec o w :
  wf w →
  registered (Unregister o w) = remove_first o (registered w) ∧
  calls (Unregister o w) = calls w ∧ wf (Unregister o w) ∧
  (o ∉ registered w → Unregister o w = w).
Proof.
  intros Hwf.
  destruct (Unregister_loop_spec o w [] (registered w) Hwf eq_refl)
    as (? & ? & ? & _ & _ & _ & ?).
  done.
Qed.

Lemma Unregister_apart p o w :
  apart p w →
  apart p (Unregister o w) ∧
  array (arrays (Unregister o w)) p = array (arrays w) p.
Proof.
  intros (Hwf & Hne & Hlt).
  destruct (Unregister_loop_spec o w [] (registered w) Hwf eq_refl)
    as (_ & _ & Hwf' & Hptr & Hlen & Harr & _).
  change (Unregister_loop o w (length []) (registered w))
    with (Unregister o w) in *.
  unfold apart. rewrite Hptr, Hlen. split_and!; try done. by apply Harr.
Qed.

Lemma run_apart p s w :
  apart p w →
  apart p (run s w) ∧
  array (arrays (run s w)) p = array (arrays w) p ∧
  calls (run s w) = calls w.
Proof.
  revert w. induction s as [|o k IH|o k IH|k IH]; intros w Hw; simpl.
  - done.
  - destruct (Register_apart p o w Hw) as [Hw' Ha].
    destruct (Register_spec o w (proj1 Hw)) as (_ & Hc & _).
    destruct (IH _ Hw') as (? & ? & ?). split_and!; [done|congruence..].
  - destruct (Unregister_apart p o w Hw) as [Hw' Ha].
    destruct (Unregister_spec o w (proj1 Hw)) as (_ & Hc & _).
    destruct (IH _ Hw') as (? & ? & ?). split_and!; [done|congruence..].
  - by apply IH.
Qed.

(** *** Delivery *)

Lemma Notify_loop_spec event copied todo : ∀ done w,
  apart (ptr copied) w →
  contents (arrays w) copied = done ++ todo →
  ∃ w', Notify_loop event copied (length done) (length todo) w = Ok tt w' ∧
        calls w' = calls w ++ map (λ o, (o, event)) todo ∧
        wf w'.
Proof.
  induction todo as [|o todo IH]; intros done w Hap Hc; simpl.
  - exists w. rewrite app_nil_r. split_and!; [done..|apply Hap].
  - rewrite Hc, list_lookup_middle by done.
    set (w1 := mkWorld (arrays w) (observers w) (calls w ++ [(o, event)])).
    assert (apart (ptr copied) w1) as Hw1 by exact Hap.
    destruct (run_apart (ptr copied) (OnEvent o event) w1 Hw1)
      as (Hap2 & Harr & Hcalls).
    destruct (IH (done ++ [o]) (run (OnEvent o event) w1) Hap2)
      as (w' & Hrun & Hcalls' & Hwf').
    { rewrite (contents_frame (arrays w1) _ copied Harr).
      simpl. by rewrite Hc, <- app_assoc. }
    rewrite length_app, Nat.add_1_r in Hrun.
    exists w'. split_and!; [done| |done].
    rewrite Hcalls', Hcalls. simpl. by rewrite <- app_assoc.
Qed.

Lemma calls_of_entries (o : Observer) (event : Event) (l : list Observer) :
  length (filter (λ c : Observer * Event, c.1 = o) (map (λ x, (x, event)) l))
  = length (filter (λ x, x = o) l).
Proof.
  induction l as [|x l IH]; simpl; [done|].
  rewrite !filter_cons. simpl. case_decide; simpl; by rewrite IH.
Qed.

(** C1. [Notify] calls [OnEvent] with the event once for each entry that
    the registration set holds when [Notify] begins, in registration order,
    whatever the observers do to the set from inside [OnEvent]: the calls
    made by [Notify] are exactly the entries of the set at entry, in order,
    so that each observer is called as many times as it was entered, once
    when it was registered once. *)
Theorem Notify_delivers_to_snapshot (event : Event) (w : World) :
  wf w →
  ∃ w', Notify event w = Ok tt w' ∧
        calls w' = calls w ++ map (λ o, (o, event)) (registered w) ∧
        (∀ o, length (filter (λ c, c.1 = o)
                        (drop (length (calls w)) (calls w')))
              = length (filter (λ x, x = o) (registered w))) ∧
        wf w'.
Proof.
  intros [Hv Hp]. unfold Notify.
  destruct (make_copy (arrays w) (observers w) Hv)
    as (Hc & Hptr & Hoff & Hlen & _ & Hheap & Harr).
  destruct (make (arrays w) (len (observers w))) as [h1 copied].
  simpl in Hc, Hptr, Hoff, Hlen, Hheap, Harr.
  set (w0 := mkWorld (copy h1 copied (observers w)) (observers w) (calls w)).
  assert (apart (ptr copied) w0) as Hap.
  { unfold apart, wf, w0; simpl. rewrite Hheap, Hptr. split_and!; try lia.
    apply (valid_frame (arrays w)); [|done]. by apply Harr. }
  destruct (Notify_loop_spec event copied (registered w) [] w0 Hap)
    as (w' & Hrun & Hcalls & Hwf); [done|].
  exists w'. split_and!; [|done| |done].
  - rewrite <- Hrun. simpl. rewrite Hlen.
    unfold registered. by rewrite contents_length.
  - intros o. rewrite Hcalls. simpl. rewrite drop_app_length.
    apply calls_of_entries.
Qed.

(** C5. [Unregister] takes out the first entry with the identity of its
    argument and keeps the other entries in their order; when there is no
    such entry nothing changes at all. [Register] adds at the end whether or
    not the observer is already entered, and one [Unregister] takes out one
    copy only. *)
Theorem Unregister_removes_first_match (o : Observer) (w : World) :
  wf w →
  (o ∈ registered w →
     ∃ l1 l2, registered w = l1 ++ (o :: l2) ∧ (o ∉ l1) ∧
              registered (Unregister o w) = l1 ++ l2) ∧
  (o ∉ registered w → Unregister o w = w) ∧
  registered (Register o w) = registered w ++ [o] ∧
  wf (Unregister o w) ∧ wf (Register o w).
Proof.
  intros Hwf.
  destruct (Unregister_spec o w Hwf) as (Hreg & _ & Hwf' & Hsame).
  destruct (Register_spec o w Hwf) as (Hadd & _ & Hwf1).
  split_and!; try done.
  intros Hin. destruct (remove_first_present o _ Hin) as (l1 & l2 & ? & ? & ?).
  exists l1, l2. split_and!; [done|done|congruence].
Qed.

End bus.

(** *** A bus with an observer that leaves during delivery *)

(** Observer 2 unregisters itself and observer 3 and registers observer 9
    twice from its own [OnEvent]; the others do nothing. *)
Definition leaver (o : Observer) (_ : Event) : script :=
  if decide (o = 2) then
    CallUnregister 2 (CallUnregister 3
      (CallObserverCount (λ n, CallRegister 9 (CallRegister 9 Return))))
  else Return.

Definition three_observers : World :=
  @Register doubling 3 (@Register doubling 2 (@Register doubling 1
    (@Register doubling 2 NewEventBus))).

Definition captured : Event := NewEvent EventImageCaptured None "Photo created".

Lemma three_observers_wf : wf three_observers.
Proof. unfold wf, valid. vm_compute. lia. Qed.

Lemma Notify_delivers_to_snapshot_witness :
  ∃ w', @Notify doubling leaver captured three_observers = Ok tt w' ∧
        calls w' = [(2, captured); (1, captured); (2, captured); (3, captured)].
Proof.
  destruct (@Notify_delivers_to_snapshot doubling leaver captured
              three_observers three_observers_wf) as (w' & Hrun & Hcalls & _).
  exists w'. split; [exact Hrun|exact Hcalls].
Defined.

Lemma Unregister_removes_first_match_witness :
  (2 ∈ registered three_observers →
     ∃ l1 l2, registered three_observers = l1 ++ (2 :: l2) ∧ (2 ∉ l1) ∧
              registered (@Unregister doubling 2 three_observers) = l1 ++ l2) ∧
  (2 ∉ registered three_observers →
     @Unregister doubling 2 three_observers = three_observers) ∧
  registered (@Register doubling 2 three_observers)
    = registered three_observers ++ [2] ∧
  wf (@Unregister doubling 2 three_observers) ∧
  wf (@Register doubling 2 three_observers).
Proof.
  exact (@Unregister_removes_first_match doubling 2 three_observers
           three_observers_wf).
Defined.

(** *** The bus as a list of entries *)

Section bus_facts.
Context `{!GrowthPolicy}.
Context (OnEvent : Observer → Event → script).

(** What a script does to the entries, read as a list. *)
Fixpoint effect (s : script) (l : list Observer) : list Observer :=
  match s with
  | Return => l
  | CallRegister o k => effect k (l ++ [o])
  | CallUnregister o k => effect k (remove_first o l)
  | CallObserverCount k => effect (k (length l)) l
  end.

Lemma ObserverCount_registered w :
  wf w → ObserverCount w = length (registered w).
Proof.
  intros [Hv _]. unfold ObserverCount, registered.
  by rewrite contents_length.
Qed.

Lemma run_effect s : ∀ w,
  wf w →
  registered (run s w) = effect s (registered w) ∧
  wf (run s w) ∧ calls (run s w) = calls w.
Proof.
  induction s as [|o k IH|o k IH|k IH]; intros w Hwf; simpl.
  - done.
  - destruct (Register_spec o w Hwf) as (Hreg & Hcalls & Hwf').
    destruct (IH _ Hwf') as (? & ? & ?).
    split_and!; [|done|]; congruence.
  - destruct (Unregister_spec o w Hwf) as (Hreg & Hcalls & Hwf' & _).
    destruct (IH _ Hwf') as (? & ? & ?).
    split_and!; [|done|]; congruence.
  - rewrite (ObserverCount_registered w Hwf). by apply IH.
Qed.

Lemma Notify_loop_effect event copied todo : ∀ done w,
  apart (ptr copied) w →
  contents (arrays w) copied = done ++ todo →
  ∃ w', Notify_loop OnEvent event copied (length done) (length todo) w
          = Ok tt w' ∧
        calls w' = calls w ++ map (λ o, (o, event)) todo ∧
        wf w' ∧
        registered w'
          = foldl (λ l o, effect (OnEvent o event) l) (registered w) todo.
Proof.
  induction todo as [|o todo IH]; intros done w Hap Hc; simpl.
  - exists w. rewrite app_nil_r. split_and!; [done..|apply Hap|done].
  - rewrite Hc, list_lookup_middle by done.
    set (w1 := mkWorld (arrays w) (observers w) (calls w ++ [(o, event)])).
    assert (apart (ptr copied) w1) as Hw1 by exact Hap.
    destruct (run_apart (ptr copied) (OnEvent o event) w1 Hw1)
      as (Hap2 & Harr & Hcalls).
    destruct (run_effect (OnEvent o event) w1 (proj1 Hw1)) as (Heff & _ & _).
    destruct (IH (done ++ [o]) (run (OnEvent o event) w1) Hap2)
      as (w' & Hrun & Hcalls' & Hwf' & Hreg').
    { rewrite (contents_frame (arrays w1) _ copied Harr).
      simpl. by rewrite Hc, <- app_assoc. }
    rewrite length_app, Nat.add_1_r in Hrun.
    exists w'. split_and!; [done| |done|].
    + rewrite Hcalls', Hcalls. simpl. by rewrite <- app_assoc.
    + by rewrite Hreg', Heff.
Qed.

(** [Notify] on a well-formed bus: it returns, its calls are the entries at
    entry, and the entries it leaves are those the callbacks produced, one
    after the other. *)
Lemma Notify_spec event w :
  wf w →
  ∃ w', Notify OnEvent event w = Ok tt w' ∧
        calls w' = calls w ++ map (λ o, (o, event)) (registered w) ∧
        wf w' ∧
        registered w'
          = foldl (λ l o, effect (OnEvent o event) l)
                  (registered w) (registered w).
Proof.
  intros [Hv Hp]. unfold Notify.
  destruct (make_copy (arrays w) (observers w) Hv)
    as (Hc & Hptr & Hoff & Hlen & _ & Hheap & Harr).
  destruct (make (arrays w) (len (observers w))) as [h1 copied].
  simpl in Hc, Hptr, Hoff, Hlen, Hheap, Harr.
  set (w0 := mkWorld (copy h1 copied (observers w)) (observers w) (calls w)).
  assert (registered w0 = registered w) as Hreg0.
  { unfold registered, w0. simpl. apply contents_frame. by apply Harr. }
  assert (apart (ptr copied) w0) as Hap.
  { unfold apart, wf, w0; simpl. rewrite Hheap, Hptr. split_and!; try lia.
    apply (valid_frame (arrays w)); [|done]. by apply Harr. }
  destruct (Notify_loop_effect event copied (registered w) [] w0 Hap)
    as (w' & Hrun & Hcalls & Hwf & Hreg); [done|].
  exists w'. split_and!; [|done|done|by rewrite Hreg, Hreg0].
  rewrite <- Hrun. simpl. rewrite Hlen.
  unfold registered. by rewrite contents_length.
Qed.

Lemma remove_first_app_present o l k :
  o ∈ l → remove_first o (l ++ k) = remove_first o l ++ k.
Proof.
  induction l as [|x l IH]; simpl; intros Hin.
  - by apply elem_of_nil in Hin.
  - case_decide; [done|]. simpl. f_equal. apply IH.
    apply elem_of_cons in Hin as [?|?]; [congruence|done].
Qed.

Lemma remove_first_app_absent o l k :
  o ∉ l → remove_first o (l ++ k) = l ++ remove_first o k.
Proof.
  induction l as [|x l IH]; simpl; intros Hn; [done|].
  apply not_elem_of_cons in Hn as [? ?]. case_decide; [congruence|].
  f_equal. by apply IH.
Qed.

Lemma remove_first_length o l :
  length (remove_first o l)
  = if decide (o ∈ l) then length l - 1 else length l.
Proof.
  case_decide as Hin.
  - destruct (remove_first_present o l Hin) as (l1 & l2 & -> & _ & ->).
    rewrite !length_app. simpl. lia.
  - by rewrite remove_first_absent.
Qed.

Lemma remove_first_count o o' l :
  length (filter (λ x, x = o') (remove_first o l))
  = if decide (o' = o) then length (filter (λ x, x = o') l) - 1
    else length (filter (λ x, x = o') l).
Proof.
  induction l as [|x l IH]; simpl.
  - by case_decide.
  - rewrite !filter_cons. destruct (decide (x = o)) as [->|Hx].
    + destruct (decide (o' = o)) as [->|Hne].
      * rewrite decide_True by done. simpl. lia.
      * by rewrite decide_False by congruence.
    + rewrite filter_cons. destruct (decide (x = o')) as [->|Hx'].
      * rewrite decide_False by congruence. simpl.
        by rewrite IH, decide_False by congruence.
      * rewrite IH. done.
Qed.

(** [ObserverCount] goes up by one at every [Register], duplicate or not,
    and down by one at an [Unregister] exactly when the observer was
    registered. *)
Theorem ObserverCount_steps (o : Observer) (w : World) :
  wf w →
  ObserverCount (Register o w) = S (ObserverCount w) ∧
  ObserverCount (Unregister o w)
    = (if decide (o ∈ registered w) then ObserverCount w - 1
       else ObserverCount w).
Proof.
  intros Hwf.
  destruct (Register_spec o w Hwf) as (Hreg & _ & Hwf1).
  destruct (Unregister_spec o w Hwf) as (Hreg' & _ & Hwf2 & _).
  rewrite !ObserverCount_registered by done.
  rewrite Hreg, Hreg', length_app, remove_first_length. simpl.
  split; [lia|done].
Qed.

(** [Register] followed by [Unregister] of the same observer: a new
    observer is gone again and the entries are as before; an observer that
    was already registered loses its oldest entry and keeps the new one, so
    it moves to the end of the delivery order. *)
Theorem Register_then_Unregister (o : Observer) (w : World) :
  wf w →
  registered (Unregister o (Register o w))
  = (if decide (o ∈ registered w) then remove_first o (registered w) ++ [o]
     else registered w).
Proof.
  intros Hwf.
  destruct (Register_spec o w Hwf) as (Hreg & _ & Hwf1).
  destruct (Unregister_spec o _ Hwf1) as (Hreg' & _).
  rewrite Hreg', Hreg. case_decide as Hin.
  - by apply remove_first_app_present.
  - rewrite remove_first_app_absent by done. simpl.
    rewrite decide_True by done. by rewrite app_nil_r.
Qed.

(** After [Unregister] of an observer, the next [Notify] calls it once
    less than it was registered (not at all when it was registered once)
    and calls every other observer as often as before. *)
Theorem Unregister_then_Notify (o : Observer) (event : Event) (w : World) :
  wf w →
  ∃ w', Notify OnEvent event (Unregister o w) = Ok tt w' ∧
        ∀ o', length (filter (λ c, c.1 = o')
                        (drop (length (calls w)) (calls w')))
              = (if decide (o' = o)
                 then length (filter (λ x, x = o') (registered w)) - 1
                 else length (filter (λ x, x = o') (registered w))).
Proof.
  intros Hwf.
  destruct (Unregister_spec o w Hwf) as (Hreg & Hcalls & Hwf' & _).
  destruct (Notify_spec event _ Hwf') as (w' & Hrun & Hcalls' & _).
  exists w'. split; [done|]. intros o'.
  rewrite Hcalls', Hcalls, drop_app_length, calls_of_entries, Hreg.
  apply remove_first_count.
Qed.

Lemma foldl_passive event (l acc : list Observer) :
  (∀ o, o ∈ l → OnEvent o event = Return) →
  foldl (λ l o, effect (OnEvent o event) l) acc l = acc.
Proof.
  revert acc. induction l as [|o l IH]; intros acc Hpassive; simpl; [done|].
  rewrite Hpassive by (by left). simpl. apply IH.
  intros o' Hin. apply Hpassive. by right.
Qed.

(** The entries [Notify] leaves behind are the ones its callbacks produce,
    applied in delivery order to the entries at entry; with observers that
    do not call the bus, as the three of this package, [Notify] changes no
    entry. *)
Theorem Notify_registration_effect (event : Event) (w : World) :
  wf w →
  ∃ w', Notify OnEvent event w = Ok tt w' ∧
        registered w'
          = foldl (λ l o, effect (OnEvent o event) l)
                  (registered w) (registered w) ∧
        ((∀ o, o ∈ registered w → OnEvent o event = Return) →
         registered w' = registered w).
Proof.
  intros Hwf.
  destruct (Notify_spec event w Hwf) as (w' & Hrun & _ & _ & Hreg).
  exists w'. split_and!; [done|done|].
  intros Hpassive. rewrite Hreg. by apply foldl_passive.
Qed.

End bus_facts.

Lemma ObserverCount_steps_witness :
  ObserverCount (@Register doubling 2 three_observers)
    = S (ObserverCount three_observers) ∧
  ObserverCount (@Unregister doubling 2 three_observers)
    = (if decide (2 ∈ registered three_observers)
       then ObserverCount three_observers - 1
       else ObserverCount three_observers).
Proof.
  exact (@ObserverCount_steps doubling 2 three_observers three_observers_wf).
Defined.

Lemma Register_then_Unregister_witness :
  registered (@Unregister doubling 2 (@Register doubling 2 three_observers))
  = (if decide (2 ∈ registered three_observers)
     then remove_first 2 (registered three_observers) ++ [2]
     else registered three_observers).
Proof.
  exact (@Register_then_Unregister doubling 2 three_observers
           three_observers_wf).
Defined.

Lemma Unregister_then_Notify_witness :
  ∃ w', @Notify doubling leaver captured
          (@Unregister doubling 3 three_observers) = Ok tt w' ∧
        ∀ o', length (filter (λ c, c.1 = o')
                        (drop (length (calls three_observers)) (calls w')))
              = (if decide (o' = 3)
                 then length (filter (λ x, x = o')
                                (registered three_observers)) - 1
                 else length (filter (λ x, x = o')
                                (registered three_observers))).
Proof.
  exact (@Unregister_then_Notify doubling leaver 3 captured three_observers
           three_observers_wf).
Defined.

Lemma Notify_registration_effect_witness :
  ∃ w', @Notify doubling leaver captured three_observers = Ok tt w' ∧
        registered w'
          = foldl (λ l o, effect (leaver o captured) l)
                  (registered three_observers) (registered three_observers) ∧
        ((∀ o, o ∈ registered three_observers → leaver o captured = Return) →
         registered w' = registered three_observers).
Proof.
  exact (@Notify_registration_effect doubling leaver captured three_observers
           three_observers_wf).
Defined.

(** *** The observers of the package *)

Definition defaultThumbnailSize : nat := 128.

Definition min (a b : nat) : nat := if a <? b then a else b.

(** A [*Event] argument is [None] when it is [nil]. *)
Record ThumbnailGeneratorObserver := mkThumbnailGeneratorObserver {
  thumbnail_name : string;
  thumbnails : gmap string bytes
}.

Definition NewThumbnailGeneratorObserver (name : string)
    : ThumbnailGeneratorObserver :=
  let name := if decide (name = "") then "ThumbnailGenerator" else name in
  mkThumbnailGeneratorObserver name ∅.

Definition ThumbnailGeneratorObserver_OnEvent (event : option Event)
    (t : ThumbnailGeneratorObserver) : M image.Mem ThumbnailGeneratorObserver :=
  match event with
  | None => mret t
  | Some event =>
      match Image event with
      | None => mret t
      | Some img =>
          data ← image.Data img;
          let size := min (length (bytes_of data)) defaultThumbnailSize in
          let thumb := Some (take size (bytes_of data)) in
          id ← image.ID_ img;
          mret (mkThumbnailGeneratorObserver (thumbnail_name t)
                  (<[id := thumb]> (thumbnails t)))
      end
  end.

Definition GetThumbnail (imageID : string) (t : ThumbnailGeneratorObserver)
    : bytes * bool :=
  match thumbnails t !! imageID with
  | Some thumb => (thumb, true)
  | None => (None, false)
  end.

(** A Go [int]: 64 bits, wrapping around. *)
Definition wrap_int (z : Z) : Z := ((z + 2 ^ 63) `mod` 2 ^ 64 - 2 ^ 63)%Z.

Record StatisticsObserver := mkStatisticsObserver {
  statistics_name : string;
  count : gmap EventType Z
}.

Definition NewStatisticsObserver (name : string) : StatisticsObserver :=
  let name := if decide (name = "") then "Statistics" else name in
  mkStatisticsObserver name ∅.

Definition StatisticsObserver_OnEvent (event : option Event)
    (s : StatisticsObserver) : StatisticsObserver :=
  match event with
  | None => s
  | Some event =>
      let n := default 0%Z (count s !! Type_ event) in
      mkStatisticsObserver (statistics_name s)
        (<[Type_ event := wrap_int (n + 1)]> (count s))
  end.

(** The events of type [t] among those handed to an observer. *)
Definition of_type (t : EventType) (events : list (option Event)) : nat :=
  length (filter (λ ev : option Event, Type_ <$> ev = Some t) events).

Lemma min_le a b : min a b ≤ b ∧ min a b ≤ a.
Proof. unfold min. destruct (Nat.ltb_spec a b); lia. Qed.

(** After an event about a live image, the thumbnail kept under the
    image's ID holds the first 128 bytes of its payload, or the whole payload
    when it is shorter; it is never [nil], the thumbnails of the other IDs
    are as they were and the image memory is not written. (Byte slices are
    values here: which array the thumbnail lives in is not part of the
    statement.) *)
Theorem thumbnail_is_prefix (event : Event) (img : image.Image)
    (t : ThumbnailGeneratorObserver) (m : image.Mem) (b : image.BasicImage) :
  Image event = Some img →
  image.objects m !! image.base img = Some b →
  ∃ t' thumb,
    ThumbnailGeneratorObserver_OnEvent (Some event) t m = Ok t' m ∧
    GetThumbnail (image.id b) t' = (Some thumb, true) ∧
    thumb = take 128 (bytes_of (image.data b)) ∧
    length thumb ≤ 128 ∧
    thumb `prefix_of` bytes_of (image.data b) ∧
    (∀ id', id' ≠ image.id b → GetThumbnail id' t' = GetThumbnail id' t).
Proof.
  intros Himg Hb. unfold ThumbnailGeneratorObserver_OnEvent. rewrite Himg.
  unfold mbind, M_bind.
  rewrite (image.Data_chain img m b Hb), (image.ID_chain img m b Hb).
  eexists _, _. split; [reflexivity|].
  unfold GetThumbnail. simpl. rewrite lookup_insert_eq.
  set (l := bytes_of (image.data b)).
  assert (take (min (length l) defaultThumbnailSize) l = take 128 l) as ->.
  { unfold min, defaultThumbnailSize.
    destruct (Nat.ltb_spec (length l) 128); [|done].
    by rewrite !take_ge by lia. }
  split_and!; [done|done| | |].
  - rewrite length_take. lia.
  - apply prefix_take.
  - intros id' Hne. by rewrite lookup_insert_ne.
Qed.

(** A [nil] event, or an event without image, leaves the thumbnails as
    they are. *)
Lemma thumbnail_ignores_nil (t : ThumbnailGeneratorObserver) (m : image.Mem) :
  ThumbnailGeneratorObserver_OnEvent None t m = Ok t m ∧
  ∀ e, Image e = None →
       ThumbnailGeneratorObserver_OnEvent (Some e) t m = Ok t m.
Proof. split; [done|]. intros e He. simpl. by rewrite He. Qed.

Lemma of_type_snoc t events ev :
  of_type t (events ++ [ev])
  = of_type t events + (if decide (Type_ <$> ev = Some t) then 1 else 0).
Proof.
  unfold of_type. rewrite filter_app, length_app, filter_cons, filter_nil.
  by case_decide.
Qed.

Lemma of_type_le t events : of_type t events ≤ length events.
Proof. unfold of_type. apply length_filter. Qed.

Lemma wrap_int_small z : (- 2 ^ 63 ≤ z < 2 ^ 63)%Z → wrap_int z = z.
Proof. intros Hz. unfold wrap_int. rewrite Z.mod_small; lia. Qed.

(** A statistics observer that has been handed fewer than 2^63 events holds,
    for every event type, the number of non-[nil] events of that type it was
    handed, and no entry for a type it has not seen. *)
Theorem statistics_count_events (name : string)
    (events : list (option Event)) (t : EventType) :
  (Z.of_nat (length events) < 2 ^ 63)%Z →
  count (foldl (λ s ev, StatisticsObserver_OnEvent ev s)
               (NewStatisticsObserver name) events) !! t
  = (if decide (of_type t events = 0) then None
     else Some (Z.of_nat (of_type t events))).
Proof.
  revert t. induction events as [|ev events IH] using rev_ind; intros t Hlen.
  - done.
  - rewrite length_app in Hlen. simpl in Hlen.
    rewrite foldl_snoc, of_type_snoc.
    set (s := foldl _ _ events) in *.
    pose proof (of_type_le t events) as Hle.
    destruct ev as [e|]; simpl.
    + destruct (decide (Type_ e = t)) as [<-|Hne].
      * rewrite lookup_insert_eq.
        destruct (decide (Some (Type_ e) = Some (Type_ e))) as [_|]; [|done].
        rewrite decide_False by lia. f_equal.
        rewrite IH by lia. case_decide as Hz.
        -- rewrite Hz. simpl. by rewrite wrap_int_small by lia.
        -- simpl. rewrite wrap_int_small by lia. lia.
      * rewrite lookup_insert_ne by done.
        destruct (decide (Some (Type_ e) = Some t)) as [?|_]; [congruence|].
        rewrite Nat.add_0_r. apply IH. lia.
    + destruct (decide (None = Some t)) as [?|_]; [done|].
      rewrite Nat.add_0_r. apply IH. lia.
Qed.

(** *** A photo of 200 bytes, and three events *)

Definition long_photo : image.Mem :=
  image.mkMem []
    [image.mkBasicImage "photo-7" (Some (replicate 200 x2a))
       image.zeroMetadata].

Definition processed_long : Event :=
  NewEvent EventImageProcessed
    (Some (image.FilterDecoratorPtr (image.BasicImagePtr 0) "sepia"))
    "Processed".

Lemma thumbnail_is_prefix_witness :
  ∃ t' thumb,
    ThumbnailGeneratorObserver_OnEvent (Some processed_long)
      (NewThumbnailGeneratorObserver "") long_photo = Ok t' long_photo ∧
    GetThumbnail "photo-7" t' = (Some thumb, true) ∧
    thumb = take 128 (replicate 200 x2a) ∧
    length thumb ≤ 128 ∧
    thumb `prefix_of` replicate 200 x2a ∧
    (∀ id', id' ≠ "photo-7" →
       GetThumbnail id' t'
       = GetThumbnail id' (NewThumbnailGeneratorObserver "")).
Proof.
  exact (thumbnail_is_prefix processed_long _
           (NewThumbnailGeneratorObserver "") long_photo _ eq_refl eq_refl).
Defined.

Lemma statistics_count_events_witness :
  count (foldl (λ s ev, StatisticsObserver_OnEvent ev s)
               (NewStatisticsObserver "")
               [Some captured; None; Some processed_long; Some captured])
    !! EventImageCaptured
  = Some 2%Z.
Proof.
  exact (statistics_count_events ""
           [Some captured; None; Some processed_long; Some captured]
           EventImageCaptured ltac:(simpl; lia)).
Defined.

End events.


(** ** Errors *)

(** A value of the interface [error]: made by [errors.New] or by
    [fmt.Errorf] without [%w], or by [fmt.Errorf] with [%w], which keeps the
    error it wraps. [msg] is the whole message either way. *)
Inductive error :=
  | errorString (msg : string)
  | wrapError (msg : string) (err : error).

Definition Error (e : error) : string :=
  match e with
  | errorString msg => msg
  | wrapError msg _ => msg
  end.

Definition Unwrap (e : error) : option error :=
  match e with
  | errorString _ => None
  | wrapError _ err => Some err
  end.

(** [fmt.Errorf(context + ": %w", err)] *)
Definition Errorf_wrap (context : string) (err : error) : error :=
  wrapError (context +:+ ": " +:+ Error err) err.

(** ** Package codec *)

Module codec.

(** The interface [Encoder], on the memory of package image. *)
Record Encoder := mkEncoder {
  Encode : image.Image → M image.Mem (bytes * option error);
  Format : string
}.

Record Decoder := mkDecoder {
  Decode : bytes → M image.Mem (option image.Image * option error);
  DecoderFormat : string
}.

Definition jpegHeader : list byte := [xff; xd8; xff; xe0].
Definition pngHeader : list byte :=
  [x89; x50; x4e; x47; x0d; x0a; x1a; x0a].

Section codecs.
Context `{!GrowthPolicy}.

Definition JPEGEncoder_Encode (img : image.Image)
    : M image.Mem (bytes * option error) :=
  data ← image.Data img;
  let encoded := Some (jpegHeader ++ bytes_of data) in
  mret (encoded, None).

Definition NewJPEGEncoder : Encoder := mkEncoder JPEGEncoder_Encode "JPEG".

(** [data[i]], read only after the length has been checked. *)
Definition at_ (data : bytes) (i : nat) : byte := nth i (bytes_of data) x00.

Definition JPEGDecoder_Decode (data : bytes)
    : M image.Mem (option image.Image * option error) :=
  if (length (bytes_of data) <? 4)
     || negb (Byte.eqb (at_ data 0) xff)
     || negb (Byte.eqb (at_ data 1) xd8)
  then mret (None, Some (errorString "invalid JPEG data"))
  else
    let rawData := Some (drop 4 (bytes_of data)) in
    let metadata :=
      image.mkImageMetadata "" 1920 1080 0 0 nil_slice "JPEG" "" in
    img ← image.NewBasicImage "decoded-jpeg" rawData metadata;
    mret (Some img, None).

Definition NewJPEGDecoder : Decoder := mkDecoder JPEGDecoder_Decode "JPEG".

Definition PNGEncoder_Encode (img : image.Image)
    : M image.Mem (bytes * option error) :=
  data ← image.Data img;
  let encoded := Some (pngHeader ++ bytes_of data) in
  mret (encoded, None).

Definition NewPNGEncoder : Encoder := mkEncoder PNGEncoder_Encode "PNG".

Definition PNGDecoder_Decode (data : bytes)
    : M image.Mem (option image.Image * option error) :=
  if (length (bytes_of data) <? 8)
     || negb (Byte.eqb (at_ data 0) x89)
     || negb (Byte.eqb (at_ data 1) x50)
  then mret (None, Some (errorString "invalid PNG data"))
  else
    let rawData := Some (drop 8 (bytes_of data)) in
    let metadata :=
      image.mkImageMetadata "" 1920 1080 0 0 nil_slice "PNG" "" in
    img ← image.NewBasicImage "decoded-png" rawData metadata;
    mret (Some img, None).

Definition NewPNGDecoder : Decoder := mkDecoder PNGDecoder_Decode "PNG".

(** *** What the codecs return *)

Lemma Encode_live (header : list byte) img m b :
  image.objects m !! image.base img = Some b →
  (data ← image.Data img;
   mret (Some (header ++ bytes_of data), @None error)) m
  = Ok (Some (header ++ bytes_of (image.data b)), None) m.
Proof.
  intros Hb. unfold mbind, M_bind. by rewrite (image.Data_chain img m b Hb).
Qed.

(** The descriptor every decoded image starts with. *)
Definition decodedMetadata (id format : string) : image.ImageMetadata :=
  image.mkImageMetadata id 1920 1080 0 0 nil_slice format "".

Lemma NewBasicImage_read id data meta m :
  ∃ img m',
    image.NewBasicImage id data meta m = Ok img m' ∧
    image.slices m' = image.slices m ∧
    image.ID_ img m' = Ok id m' ∧
    image.Data img m' = Ok data m' ∧
    image.Metadata img m' = Ok (image.with_ID id meta) m'.
Proof.
  unfold image.NewBasicImage. eexists _, _. split; [done|]. simpl.
  unfold mbind, M_bind, image.deref. simpl.
  rewrite list_lookup_middle by done. done.
Qed.

Lemma take_2_eq (l : list byte) (b0 b1 : byte) :
  2 ≤ length l →
  take 2 l = [b0; b1] ↔ nth 0 l x00 = b0 ∧ nth 1 l x00 = b1.
Proof.
  destruct l as [|c0 [|c1 l]]; simpl; try lia. intros _.
  split; [intros [= -> ->]|intros [-> ->]]; done.
Qed.

Lemma header_check (n : nat) (b0 b1 : byte) (data : bytes) :
  2 ≤ n →
  (length (bytes_of data) <? n)
    || negb (Byte.eqb (at_ data 0) b0) || negb (Byte.eqb (at_ data 1) b1)
  = bool_decide (length (bytes_of data) < n
                 ∨ take 2 (bytes_of data) ≠ [b0; b1]).
Proof.
  intros Hn. unfold at_. set (l := bytes_of data).
  destruct (Nat.ltb_spec (length l) n) as [Hlt|Hge]; simpl.
  { symmetry. apply bool_decide_eq_true. by left. }
  pose proof (take_2_eq l b0 b1 ltac:(lia)) as Htake.
  destruct (Byte.eqb (nth 0 l x00) b0) eqn:E0; simpl.
  - destruct (Byte.eqb (nth 1 l x00) b1) eqn:E1; simpl; symmetry.
    + apply bool_decide_eq_false. intros [?|Hne]; [lia|].
      apply Hne, Htake. split; by apply Byte.byte_dec_bl.
    + apply bool_decide_eq_true. right. intros Heq.
      apply Htake in Heq as [_ ?]. by apply Byte.eqb_false in E1.
  - symmetry. apply bool_decide_eq_true. right. intros Heq.
    apply Htake in Heq as [? _]. by apply Byte.eqb_false in E0.
Qed.

(** C7. [Decode] fails, with the format's "invalid data" error and nothing
    allocated, exactly when the input is shorter than the header (4 bytes for
    JPEG, 8 for PNG) or does not begin with the two magic bytes the decoder
    requires ([FF D8] for JPEG, [89 50] for PNG); on every other input it
    returns an image whose payload is the input without its first 4 (JPEG) or
    8 (PNG) bytes. *)
Theorem Decode_fails_iff_bad_header (data : bytes) (m : image.Mem) :
  let l := bytes_of data in
  (if bool_decide (length l < 4 ∨ take 2 l ≠ [xff; xd8]) then
     JPEGDecoder_Decode data m
     = Ok (None, Some (errorString "invalid JPEG data")) m
   else
     ∃ img m', JPEGDecoder_Decode data m = Ok (Some img, None) m' ∧
               image.Data img m' = Ok (Some (drop 4 l)) m') ∧
  (if bool_decide (length l < 8 ∨ take 2 l ≠ [x89; x50]) then
     PNGDecoder_Decode data m
     = Ok (None, Some (errorString "invalid PNG data")) m
   else
     ∃ img m', PNGDecoder_Decode data m = Ok (Some img, None) m' ∧
               image.Data img m' = Ok (Some (drop 8 l)) m').
Proof.
  intros l. split.
  - unfold JPEGDecoder_Decode. rewrite header_check by lia. fold l.
    case_bool_decide; [done|].
    destruct (NewBasicImage_read "decoded-jpeg" (Some (drop 4 l))
                (decodedMetadata "" "JPEG") m)
      as (img & m' & Hnew & _ & _ & Hdata & _).
    exists img, m'. unfold mbind, M_bind.
    unfold decodedMetadata in Hnew. by rewrite Hnew.
  - unfold PNGDecoder_Decode. rewrite header_check by lia. fold l.
    case_bool_decide; [done|].
    destruct (NewBasicImage_read "decoded-png" (Some (drop 8 l))
                (decodedMetadata "" "PNG") m)
      as (img & m' & Hnew & _ & _ & Hdata & _).
    exists img, m'. unfold mbind, M_bind.
    unfold decodedMetadata in Hnew. by rewrite Hnew.
Qed.

(** C9. On every image, whatever its payload ([nil] and empty included),
    both encoders return a [nil] error and the magic header followed by the
    payload, and leave the memory as it was. *)
Theorem Encode_total img m b :
  image.objects m !! image.base img = Some b →
  Encode NewJPEGEncoder img m
    = Ok (Some ([xff; xd8; xff; xe0] ++ bytes_of (image.data b)), None) m ∧
  Encode NewPNGEncoder img m
    = Ok (Some ([x89; x50; x4e; x47; x0d; x0a; x1a; x0a]
                ++ bytes_of (image.data b)), None) m.
Proof.
  intros Hb. split; simpl.
  - by apply (Encode_live jpegHeader).
  - by apply (Encode_live pngHeader).
Qed.

(** C10. Decoding what an encoder of the same format produced succeeds and
    gives back the payload byte for byte, under the fixed identity
    ["decoded-jpeg"] or ["decoded-png"] and the decoder's default
    descriptor, not those of the image that was encoded. *)
Theorem Decode_Encode_roundtrip img m b :
  image.objects m !! image.base img = Some b →
  (∃ encoded decoded m',
     Encode NewJPEGEncoder img m = Ok (encoded, None) m ∧
     Decode NewJPEGDecoder encoded m = Ok (Some decoded, None) m' ∧
     image.Data decoded m' = Ok (Some (bytes_of (image.data b))) m' ∧
     image.ID_ decoded m' = Ok "decoded-jpeg" m' ∧
     image.Metadata decoded m'
       = Ok (decodedMetadata "decoded-jpeg" "JPEG") m') ∧
  (∃ encoded decoded m',
     Encode NewPNGEncoder img m = Ok (encoded, None) m ∧
     Decode NewPNGDecoder encoded m = Ok (Some decoded, None) m' ∧
     image.Data decoded m' = Ok (Some (bytes_of (image.data b))) m' ∧
     image.ID_ decoded m' = Ok "decoded-png" m' ∧
     image.Metadata decoded m'
       = Ok (decodedMetadata "decoded-png" "PNG") m').
Proof.
  intros Hb.
  pose proof (Encode_live jpegHeader img m b Hb) as Hj.
  pose proof (Encode_live pngHeader img m b Hb) as Hp.
  split.
  - destruct (NewBasicImage_read "decoded-jpeg"
                (Some (bytes_of (image.data b))) (decodedMetadata "" "JPEG") m)
      as (dec & m' & Hnew & _ & Hid & Hdata & Hmeta).
    eexists _, dec, m'. split; [exact Hj|]. split_and!; try done.
    simpl. unfold JPEGDecoder_Decode. simpl. rewrite drop_0.
    unfold mbind, M_bind. unfold decodedMetadata in Hnew. by rewrite Hnew.
  - destruct (NewBasicImage_read "decoded-png"
                (Some (bytes_of (image.data b))) (decodedMetadata "" "PNG") m)
      as (dec & m' & Hnew & _ & Hid & Hdata & Hmeta).
    eexists _, dec, m'. split; [exact Hp|]. split_and!; try done.
    simpl. unfold PNGDecoder_Decode. simpl. rewrite drop_0.
    unfold mbind, M_bind. unfold decodedMetadata in Hnew. by rewrite Hnew.
Qed.

End codecs.

(** *** An image without payload, and a filtered image *)

Definition nil_payload : image.Mem :=
  image.mkMem [] [image.mkBasicImage "photo-1" None image.zeroMetadata].

Definition sepia_photo : image.Mem :=
  image.mkMem []
    [image.mkBasicImage "photo-2" (Some [x01; x02; x03]) image.zeroMetadata].

Lemma Encode_total_witness :
  Encode NewJPEGEncoder (image.BasicImagePtr 0) nil_payload
    = Ok (Some [xff; xd8; xff; xe0], None) nil_payload ∧
  Encode NewPNGEncoder (image.BasicImagePtr 0) nil_payload
    = Ok (Some [x89; x50; x4e; x47; x0d; x0a; x1a; x0a], None) nil_payload.
Proof.
  exact (Encode_total (image.BasicImagePtr 0) nil_payload _ eq_refl).
Defined.

Lemma Decode_Encode_roundtrip_witness :
  let img := image.FilterDecoratorPtr (image.BasicImagePtr 0) "sepia" in
  (∃ encoded decoded m',
     Encode NewJPEGEncoder img sepia_photo = Ok (encoded, None) sepia_photo ∧
     Decode NewJPEGDecoder encoded sepia_photo = Ok (Some decoded, None) m' ∧
     image.Data decoded m' = Ok (Some [x01; x02; x03]) m' ∧
     image.ID_ decoded m' = Ok "decoded-jpeg" m' ∧
     @image.Metadata doubling decoded m'
       = Ok (decodedMetadata "decoded-jpeg" "JPEG") m') ∧
  (∃ encoded decoded m',
     Encode NewPNGEncoder img sepia_photo = Ok (encoded, None) sepia_photo ∧
     Decode NewPNGDecoder encoded sepia_photo = Ok (Some decoded, None) m' ∧
     image.Data decoded m' = Ok (Some [x01; x02; x03]) m' ∧
     image.ID_ decoded m' = Ok "decoded-png" m' ∧
     @image.Metadata doubling decoded m'
       = Ok (decodedMetadata "decoded-png" "PNG") m').
Proof.
  exact (@Decode_Encode_roundtrip doubling
           (image.FilterDecoratorPtr (image.BasicImagePtr 0) "sepia")
           sepia_photo _ eq_refl).
Defined.

(** *** Decoding other inputs *)

(** What one encoder produced, the decoder of the other format rejects. *)
Theorem Decode_other_format img m b :
  image.objects m !! image.base img = Some b →
  ∃ jpeg png,
    Encode NewJPEGEncoder img m = Ok (jpeg, None) m ∧
    Encode NewPNGEncoder img m = Ok (png, None) m ∧
    Decode NewPNGDecoder jpeg m
      = Ok (None, Some (errorString "invalid PNG data")) m ∧
    Decode NewJPEGDecoder png m
      = Ok (None, Some (errorString "invalid JPEG data")) m.
Proof.
  intros Hb.
  pose proof (Encode_live jpegHeader img m b Hb) as Hj.
  pose proof (Encode_live pngHeader img m b Hb) as Hp.
  eexists _, _. split; [exact Hj|]. split; [exact Hp|]. split.
  - simpl. unfold PNGDecoder_Decode. simpl.
    by destruct (_ <? 8).
  - done.
Qed.

(** Only the first two bytes of the header are compared: an input that
    begins with them and is long enough is decoded whatever its other
    header bytes are, and the payload is what follows the header's
    length. *)
Theorem Decode_ignores_rest_of_header (b2 b3 b4 b5 b6 b7 : byte)
    (rest : list byte) (m : image.Mem) :
  (∃ img m',
     Decode NewJPEGDecoder (Some (xff :: xd8 :: b2 :: b3 :: rest)) m
       = Ok (Some img, None) m' ∧
     image.Data img m' = Ok (Some rest) m') ∧
  (∃ img m',
     Decode NewPNGDecoder
       (Some (x89 :: x50 :: b2 :: b3 :: b4 :: b5 :: b6 :: b7 :: rest)) m
       = Ok (Some img, None) m' ∧
     image.Data img m' = Ok (Some rest) m').
Proof.
  split.
  - eexists _, _. split.
    + simpl. unfold JPEGDecoder_Decode. simpl. reflexivity.
    + simpl. unfold mbind, M_bind, image.deref. simpl.
      by rewrite list_lookup_middle.
  - eexists _, _. split.
    + simpl. unfold PNGDecoder_Decode. simpl. reflexivity.
    + simpl. unfold mbind, M_bind, image.deref. simpl.
      by rewrite list_lookup_middle.
Qed.

(** What a call that may allocate one image under [id] left behind, seen
    from the memory [m] it started in. *)
Definition allocated_one (id : string) (m : image.Mem)
    (r : outcome image.Mem (option image.Image * option error)) : Prop :=
  match r with
  | Ok (None, _) m' => m' = m
  | Ok (Some img, _) m' =>
      img = image.BasicImagePtr (length (image.objects m)) ∧
      image.slices m' = image.slices m ∧
      ∃ b, image.objects m' = image.objects m ++ [b] ∧
           image.id b = id ∧ image.ID (image.metadata b) = id ∧
           image.Filters (image.metadata b) = nil_slice
  | Panic _ _ => False
  end.

(** A decoder writes to no image that exists: when it fails the memory is
    as it was, and when it succeeds the image it returns is a new object,
    added after the existing ones, with an empty filter history; the
    existing objects and the filter arrays are untouched. *)
Theorem Decode_allocates_one (data : bytes) (m : image.Mem) :
  allocated_one "decoded-jpeg" m (JPEGDecoder_Decode data m) ∧
  allocated_one "decoded-png" m (PNGDecoder_Decode data m).
Proof.
  split.
  - unfold JPEGDecoder_Decode.
    destruct (_ || _ || _); simpl; [done|].
    split_and!; [done|done|]. by eexists.
  - unfold PNGDecoder_Decode.
    destruct (_ || _ || _); simpl; [done|].
    split_and!; [done|done|]. by eexists.
Qed.

Lemma Decode_other_format_witness :
  let img := image.FilterDecoratorPtr (image.BasicImagePtr 0) "sepia" in
  ∃ jpeg png,
    Encode NewJPEGEncoder img sepia_photo = Ok (jpeg, None) sepia_photo ∧
    Encode NewPNGEncoder img sepia_photo = Ok (png, None) sepia_photo ∧
    Decode NewPNGDecoder jpeg sepia_photo
      = Ok (None, Some (errorString "invalid PNG data")) sepia_photo ∧
    Decode NewJPEGDecoder png sepia_photo
      = Ok (None, Some (errorString "invalid JPEG data")) sepia_photo.
Proof.
  exact (Decode_other_format
           (image.FilterDecoratorPtr (image.BasicImagePtr 0) "sepia")
           sepia_photo _ eq_refl).
Defined.

End codec.

(** ** Package storage *)

Module storage.

Definition ErrNotFound : error := errorString "not found".

(** The interface [Storage], over the state [S] of the implementation. *)
Record Storage (S : Type) := mkStorage {
  Save : string → bytes → S → S * option error;
  Load : string → S → bytes * option error
}.
Arguments Save {S} _ _ _ _.
Arguments Load {S} _ _ _.

Definition MapAdapter_Save (id : string) (data : bytes)
    (m : gmap string bytes) : gmap string bytes * option error :=
  if decide (id = "") then (m, Some (errorString "id cannot be empty"))
  else
    match data with
    | None => (m, Some (errorString "data cannot be nil"))
    | Some _ => (<[id := data]> m, None)
    end.

Definition MapAdapter_Load (id : string) (m : gmap string bytes)
    : bytes * option error :=
  match m !! id with
  | None => (None, Some (wrapError ("not found: " +:+ id) ErrNotFound))
  | Some data => (data, None)
  end.

Definition NewMapAdapter : gmap string bytes := ∅.

Definition MapAdapter : Storage (gmap string bytes) :=
  mkStorage _ MapAdapter_Save MapAdapter_Load.

(** *** The map adapter *)

(** What every adapter reachable from [NewMapAdapter] satisfies: no entry
    under the empty id, and no [nil] value. *)
Definition well_keyed (m : gmap string bytes) : Prop :=
  m !! "" = None ∧ ∀ id data, m !! id = Some data → data ≠ None.

(** A run of [Save] calls, results ignored. *)
Fixpoint Save_all (calls : list (string * bytes)) (m : gmap string bytes)
    : gmap string bytes :=
  match calls with
  | [] => m
  | (id, data) :: calls => Save_all calls (MapAdapter_Save id data m).1
  end.

(** [Save] followed by [Load] of the same id gives back the bytes saved,
    the last ones when the id was saved before, and no other id is
    touched. *)
Theorem Save_then_Load (id : string) (data : list byte)
    (m : gmap string bytes) :
  id ≠ "" →
  ∃ m', Save MapAdapter id (Some data) m = (m', None) ∧
        Load MapAdapter id m' = (Some data, None) ∧
        (∀ id', id' ≠ id → Load MapAdapter id' m' = Load MapAdapter id' m).
Proof.
  intros Hid. exists (<[id := Some data]> m). simpl.
  unfold MapAdapter_Save, MapAdapter_Load. case_decide; [done|].
  split_and!; [done| |].
  - by rewrite lookup_insert_eq.
  - intros id' Hne. by rewrite lookup_insert_ne.
Qed.

Lemma Save_then_Load_witness :
  ∃ m', Save MapAdapter "photo-1" (Some [x01]) NewMapAdapter = (m', None) ∧
        Load MapAdapter "photo-1" m' = (Some [x01], None) ∧
        (∀ id', id' ≠ "photo-1" →
           Load MapAdapter id' m' = Load MapAdapter id' NewMapAdapter).
Proof. apply (Save_then_Load "photo-1" [x01] NewMapAdapter). done. Defined.

(** [Save] returns an error exactly when the id is empty or the data is
    [nil], the empty id being reported first, and then stores nothing. *)
Theorem Save_rejects (id : string) (data : bytes) (m : gmap string bytes) :
  ((Save MapAdapter id data m).2 ≠ None ↔ id = "" ∨ data = None) ∧
  ((Save MapAdapter id data m).2 ≠ None → (Save MapAdapter id data m).1 = m) ∧
  (id = "" →
     (Save MapAdapter id data m).2 = Some (errorString "id cannot be empty")) ∧
  (id ≠ "" → data = None →
     (Save MapAdapter id data m).2 = Some (errorString "data cannot be nil")).
Proof.
  simpl. unfold MapAdapter_Save.
  case_decide as Hid; destruct data as [d|]; simpl; split_and!;
    try done; try (split; [by auto|]); try tauto; try (by intros _).
  intros [?|?]; done.
Qed.

(** [Load] fails exactly on the ids that hold no entry; it then returns
    [nil] and ["not found: <id>"], an error that unwraps to [ErrNotFound].
    Nothing can be loaded from a new adapter. *)
Theorem Load_missing (id : string) (m : gmap string bytes) :
  ((Load MapAdapter id m).2 ≠ None ↔ m !! id = None) ∧
  (m !! id = None →
     ∃ err, Load MapAdapter id m = (None, Some err) ∧
            Error err = "not found: " +:+ id ∧
            Unwrap err = Some ErrNotFound) ∧
  (Load MapAdapter id NewMapAdapter).2 ≠ None.
Proof.
  simpl. unfold MapAdapter_Load, NewMapAdapter. rewrite lookup_empty.
  destruct (m !! id) as [d|]; simpl; split_and!; try done.
  - intros _. eexists. done.
Qed.

Lemma Save_well_keyed id data m :
  well_keyed m → well_keyed (MapAdapter_Save id data m).1.
Proof.
  intros [Hempty Hnil]. unfold MapAdapter_Save.
  case_decide as Hid; [done|]. destruct data as [d|]; [|done]. simpl. split.
  - by rewrite lookup_insert_ne.
  - intros id' data'. destruct (decide (id = id')) as [->|Hne].
    + rewrite lookup_insert_eq. by intros [= <-].
    + rewrite lookup_insert_ne by done. apply Hnil.
Qed.

(** Whatever was saved, in whatever order and whether or not the calls
    succeeded, the adapter holds no entry under the empty id and no [nil]
    value: a [Load] that succeeds never returns [nil] bytes, and a [Load]
    of the empty id always fails. *)
Theorem Save_all_well_keyed (calls : list (string * bytes)) (id : string) :
  let m := Save_all calls NewMapAdapter in
  well_keyed m ∧
  ((Load MapAdapter id m).2 = None → (Load MapAdapter id m).1 ≠ None) ∧
  (Load MapAdapter "" m).2 ≠ None.
Proof.
  assert (∀ m, well_keyed m → well_keyed (Save_all calls m)) as Hinv.
  { induction calls as [|[i d] calls IH]; intros m Hm; simpl; [done|].
    apply IH. by apply Save_well_keyed. }
  assert (well_keyed NewMapAdapter) as H0.
  { split; [done|]. intros ? ?. unfold NewMapAdapter.
    by rewrite lookup_empty. }
  specialize (Hinv _ H0). simpl. destruct Hinv as [Hempty Hnil].
  split_and!; [done| |].
  - unfold MapAdapter_Load.
    destruct (Save_all calls NewMapAdapter !! id) as [d|] eqn:Hd; [|done].
    simpl. intros _. by apply (Hnil id).
  - unfold MapAdapter_Load. by rewrite Hempty.
Qed.

End storage.


(** ** Package camera *)

Module camera.

Definition defaultWidth : Z := 1920.
Definition defaultHeight : Z := 1080.
Definition defaultDataSize : nat := 1024.
Definition minRating : Z := 1.
Definition maxRating : Z := 5.
Definition defaultFormat : string := "JPEG".

Definition PhotoTypeLandscape : string := "landscape".
Definition PhotoTypePortrait : string := "portrait".

Definition FormatPNG : string := "png".
Definition FormatJPEG : string := "jpeg".

(** What the clock and the random source give to one call of
    [CreatePhoto]: the bytes of [rand.Read], the number [rand.Intn] derives
    its result from, the instant of the first [time.Now] and the
    [UnixNano] of the second. *)
Record Env := mkEnv {
  rand_Read : nat → byte;
  rand_Int : Z;
  time_Now : Z;
  time_Now_UnixNano : Z
}.

(** [fmt.Sprintf("%d", n)] *)
Definition decimal (n : Z) : string := NilZero.string_of_int (Z.to_int n).

(** [strings.ToLower] on the letters A to Z; no other character is mapped
    to a letter of ["png"]. *)
Definition lower (c : Ascii.ascii) : Ascii.ascii :=
  let n := Ascii.nat_of_ascii c in
  if (65 <=? n) && (n <=? 90) then Ascii.ascii_of_nat (n + 32) else c.

Fixpoint ToLower (s : string) : string :=
  match s with
  | EmptyString => EmptyString
  | String c s => String (lower c) (ToLower s)
  end.

Definition getDescription (photoType : string) : string :=
  if decide (photoType = PhotoTypeLandscape) then "Beautiful landscape photo"
  else if decide (photoType = PhotoTypePortrait) then "Portrait photo"
  else "Standard photo".

Definition CreatePhoto (env : Env) (photoType : string)
    : M image.Mem image.Image :=
  let data := Some (map (rand_Read env) (seq 0 defaultDataSize)) in
  let metadata :=
    image.mkImageMetadata "" defaultWidth defaultHeight (time_Now env)
      (rand_Int env `mod` maxRating + minRating)%Z
      nil_slice defaultFormat (getDescription photoType) in
  let id := "photo-" +:+ decimal (time_Now_UnixNano env) in
  image.NewBasicImage id data metadata.

(** The facade with its collaborators: the memory of the images, the
    states of the subject and of the storage, and the events handed to
    [Notify] so far, oldest first. *)
Record World (B S : Type) := mkWorld {
  mem : image.Mem;
  eventBus : B;
  store : S;
  published : list events.Event
}.
Arguments mkWorld {B S} _ _ _ _.
Arguments mem {B S} _.
Arguments eventBus {B S} _.
Arguments store {B S} _.
Arguments published {B S} _.

Definition with_mem {B S} (m : image.Mem) (w : World B S) : World B S :=
  mkWorld m (eventBus w) (store w) (published w).

Section facade.
Context `{!GrowthPolicy}.
Context {B S : Type}.
(** The two collaborators the facade is built with. *)
Context (subject : events.Subject B) (storage : storage.Storage S).
(** The encoders package codec hands out; the facade sees them through the
    interface [Encoder] only. *)
Context (NewPNGEncoder NewJPEGEncoder : codec.Encoder).

Local Abbreviation World := (World B S).

Definition Notify (event : events.Event) : M World unit := λ w,
  Ok tt (mkWorld (mem w) (events.Subject_Notify subject event (eventBus w))
                 (store w) (published w ++ [event])).

Definition Save (id : string) (data : bytes) : M World (option error) := λ w,
  let (s, err) := storage.Save storage id data (store w) in
  Ok err (mkWorld (mem w) (eventBus w) s (published w)).

Definition createPhoto (env : Env) (photoType : string)
    : M World image.Image :=
  photo ← zoom mem with_mem (CreatePhoto env photoType);
  _ ← Notify (events.NewEvent events.EventImageCaptured (Some photo)
                "Photo created");
  mret photo.

Fixpoint applyFilters (photo : image.Image) (filters : list string)
    : M World image.Image :=
  match filters with
  | [] => mret photo
  | filter :: filters =>
      processed ← zoom mem with_mem
                    (image.NewFilterDecorator (Some photo) filter);
      applyFilters processed filters
  end.

Definition selectEncoder (format : string) : codec.Encoder :=
  if decide (ToLower format = FormatPNG) then NewPNGEncoder
  else NewJPEGEncoder.

Definition encodePhoto (img : image.Image) (format : string)
    : M World (bytes * option error) :=
  let encoder := selectEncoder format in
  zoom mem with_mem (codec.Encode encoder img).

Definition CaptureAndProcess (env : Env) (photoType : string)
    (filters : list string) (format : string)
    : M World (bytes * option error) :=
  photo ← createPhoto env photoType;
  processed ← applyFilters photo filters;
  r ← encodePhoto processed format;
  match r.2 with
  | Some err => mret (None, Some (Errorf_wrap "encode photo" err))
  | None =>
      let encoded := r.1 in
      id ← zoom mem with_mem (image.ID_ processed);
      err ← Save id encoded;
      match err with
      | Some err => mret (None, Some (Errorf_wrap "save photo" err))
      | None =>
          _ ← Notify (events.NewEvent events.EventImageProcessed
                        (Some processed) "Processed");
          mret (encoded, None)
      end
  end.

Definition QuickCapture (env : Env) (photoType : string)
    : M World (image.Image * option error) :=
  photo ← createPhoto env photoType;
  mret (photo, None).

(** *** The stages of the pipeline *)

(** The object [CreatePhoto] allocates. *)
Definition created (env : Env) (photoType : string) : image.BasicImage :=
  let id := "photo-" +:+ decimal (time_Now_UnixNano env) in
  image.mkBasicImage id
    (Some (map (rand_Read env) (seq 0 defaultDataSize)))
    (image.mkImageMetadata id defaultWidth defaultHeight (time_Now env)
       (rand_Int env `mod` maxRating + minRating)%Z
       nil_slice defaultFormat (getDescription photoType)).

Definition captured (photo : image.Image) : events.Event :=
  events.NewEvent events.EventImageCaptured (Some photo) "Photo created".

Definition processed_event (img : image.Image) : events.Event :=
  events.NewEvent events.EventImageProcessed (Some img) "Processed".

Lemma with_mem_id (w : World) : with_mem (mem w) w = w.
Proof. by destruct w. Qed.

Lemma createPhoto_spec env photoType (w : World) :
  let photo := image.BasicImagePtr (length (image.objects (mem w))) in
  createPhoto env photoType w
  = Ok photo
      (mkWorld
         (image.with_objects
            (image.objects (mem w) ++ [created env photoType]) (mem w))
         (events.Subject_Notify subject (captured photo) (eventBus w))
         (store w) (published w ++ [captured photo])).
Proof. done. Qed.

Lemma applyFilters_ok filters : ∀ photo (w : World),
  Forall (λ f, f ≠ "") filters →
  applyFilters photo filters w
  = Ok (foldl image.FilterDecoratorPtr photo filters) w.
Proof.
  induction filters as [|f filters IH]; intros photo w Hne; simpl; [done|].
  apply Forall_cons in Hne as [Hf Hne].
  unfold mbind, M_bind, zoom; simpl. case_decide; [done|]. simpl.
  rewrite with_mem_id. by apply IH.
Qed.

Lemma applyFilters_inv filters : ∀ photo (w w' : World) processed,
  applyFilters photo filters w = Ok processed w' →
  Forall (λ f, f ≠ "") filters ∧
  processed = foldl image.FilterDecoratorPtr photo filters ∧ w' = w.
Proof.
  induction filters as [|f filters IH]; intros photo w w' processed; simpl.
  - intros [= -> ->]. done.
  - unfold mbind, M_bind, zoom; simpl. case_decide as Hf; [done|]. simpl.
    rewrite with_mem_id. intros Hrest.
    destruct (IH _ _ _ _ Hrest) as (? & ? & ?).
    split_and!; try done. by apply Forall_cons.
Qed.

Lemma applyFilters_empty_name filters : ∀ photo (w : World),
  "" ∈ filters →
  applyFilters photo filters w = Panic "filter cannot be empty" w.
Proof.
  induction filters as [|f filters IH]; intros photo w Hin; simpl.
  - by apply elem_of_nil in Hin.
  - unfold mbind, M_bind, zoom; simpl.
    case_decide as Hf; simpl; rewrite with_mem_id; [done|]. apply IH.
    apply elem_of_cons in Hin as [?|?]; [congruence|done].
Qed.

Lemma names_foldl filters : ∀ photo,
  image.names (foldl image.FilterDecoratorPtr photo filters)
  = image.names photo ++ filters.
Proof.
  induction filters as [|f filters IH]; intros photo; simpl.
  - by rewrite app_nil_r.
  - rewrite IH. simpl. by rewrite <- app_assoc.
Qed.

Lemma base_foldl filters : ∀ photo,
  image.base (foldl image.FilterDecoratorPtr photo filters)
  = image.base photo.
Proof.
  induction filters as [|f filters IH]; intros photo; simpl; [done|].
  by rewrite IH.
Qed.

(** C2. For a base image made by the factory and a list of names that the
    pipeline folded into a chain of decorators, the descriptor read through
    the last wrapper shows exactly those names, in the order they were
    applied; with no name the image stays unwrapped and shows no filter. *)
Theorem applyFilters_history env photoType filters
    (w w1 w2 : World) photo processed :
  createPhoto env photoType w = Ok photo w1 →
  applyFilters photo filters w1 = Ok processed w2 →
  ∃ meta m',
    image.Metadata processed (mem w2) = Ok meta m' ∧
    image.history m' meta = filters ∧
    length (image.history m' meta) = length filters ∧
    (filters = [] → processed = photo).
Proof.
  rewrite createPhoto_spec. intros [= <- <-] Hfold.
  apply applyFilters_inv in Hfold as (_ & -> & ->).
  set (photo := image.BasicImagePtr (length (image.objects (mem w)))).
  set (m1 := image.with_objects _ (mem w)).
  destruct (image.Metadata_chain
              (foldl image.FilterDecoratorPtr photo filters) m1
              (created env photoType))
    as (fs & h & Hread & _ & Hc & _).
  { rewrite base_foldl. simpl. by apply list_lookup_middle. }
  { unfold valid. simpl. lia. }
  eexists _, _. split; [exact Hread|].
  assert (image.history (image.with_slices h m1)
            (image.with_Filters fs (image.metadata (created env photoType)))
          = filters) as Hhist.
  { unfold image.history. simpl. rewrite Hc, names_foldl. done. }
  split_and!; [done|by rewrite Hhist|by intros ->].
Qed.

(** The events handed to [Notify] between two states. *)
Definition published_since (w w' : World) : list events.Event :=
  drop (length (published w)) (published w').

(** C6. When the encoder returns an error for the wrapped image,
    [CaptureAndProcess] returns [nil] bytes and that error wrapped as
    ["encode photo: ..."], the state of the storage is the one the call began
    with, and the only event published during the call is the one for the
    creation: no [EventImageProcessed]. *)
Theorem encode_failure_aborts env photoType filters format
    (w w1 w2 : World) photo processed encoded err m3 :
  createPhoto env photoType w = Ok photo w1 →
  applyFilters photo filters w1 = Ok processed w2 →
  codec.Encode (selectEncoder format) processed (mem w2)
    = Ok (encoded, Some err) m3 →
  ∃ w',
    CaptureAndProcess env photoType filters format w
      = Ok (None, Some (Errorf_wrap "encode photo" err)) w' ∧
    Unwrap (Errorf_wrap "encode photo" err) = Some err ∧
    store w' = store w ∧
    published_since w w' = [captured photo] ∧
    Forall (λ ev, events.Type_ ev ≠ events.EventImageProcessed)
           (published_since w w').
Proof.
  intros Hcreate Hfold Henc.
  exists (with_mem m3 w2).
  unfold CaptureAndProcess, mbind, M_bind.
  rewrite Hcreate, Hfold. unfold encodePhoto, zoom. rewrite Henc. simpl.
  apply applyFilters_inv in Hfold as (_ & _ & ->).
  rewrite createPhoto_spec in Hcreate. injection Hcreate as <- <-.
  unfold published_since. simpl. rewrite drop_app_length.
  split_and!; try done.
  apply Forall_singleton. done.
Qed.

End facade.

Section builtin.
Context `{!GrowthPolicy}.
Context {B S : Type}.
Context (subject : events.Subject B) (storage : storage.Storage S).

(** The facade of the program: the one over the encoders of package
    codec. *)
Definition Facade_CaptureAndProcess
    : Env → string → list string → string →
      M (World B S) (bytes * option error) :=
  CaptureAndProcess subject storage codec.NewPNGEncoder codec.NewJPEGEncoder.

(** C3, for lists of non-empty filter names. When [Save] of the storage
    always returns an error, [CaptureAndProcess] calls it once, with the ID
    of the photo and the encoded bytes, and returns [nil] bytes and the
    error that call returned, wrapped as ["save photo: ..."]; the storage
    is in the state that call left, and the only event published during the
    call is the one for the creation: no [EventImageProcessed]. *)
Theorem storage_failure_short_circuits env photoType filters format
    (w : World B S) :
  (∀ id data s, (storage.Save storage id data s).2 ≠ None) →
  Forall (λ f, f ≠ "") filters →
  let photo := image.BasicImagePtr (length (image.objects (mem w))) in
  let header :=
    if decide (ToLower format = FormatPNG) then codec.pngHeader
    else codec.jpegHeader in
  let encoded :=
    Some (header ++ map (rand_Read env) (seq 0 defaultDataSize)) in
  let id := "photo-" +:+ decimal (time_Now_UnixNano env) in
  let saved := storage.Save storage id encoded (store w) in
  ∃ err w',
    saved.2 = Some err ∧
    Facade_CaptureAndProcess env photoType filters format w
      = Ok (None, Some (Errorf_wrap "save photo" err)) w' ∧
    Error (Errorf_wrap "save photo" err) = "save photo: " +:+ Error err ∧
    Unwrap (Errorf_wrap "save photo" err) = Some err ∧
    store w' = saved.1 ∧
    published_since w w' = [captured photo] ∧
    Forall (λ ev, events.Type_ ev ≠ events.EventImageProcessed)
           (published_since w w').
Proof.
  intros Hfail Hne photo header encoded id saved.
  unfold Facade_CaptureAndProcess, CaptureAndProcess, mbind, M_bind.
  rewrite createPhoto_spec. rewrite applyFilters_ok by done.
  fold photo.
  set (processed := foldl image.FilterDecoratorPtr photo filters).
  set (w1 := mkWorld _ _ _ _).
  assert (image.objects (mem w1) !! image.base processed
          = Some (created env photoType)) as Hlive.
  { unfold processed. rewrite base_foldl. simpl.
    by apply list_lookup_middle. }
  pose proof (codec.Encode_live codec.jpegHeader processed (mem w1) _ Hlive)
    as Hj.
  pose proof (codec.Encode_live codec.pngHeader processed (mem w1) _ Hlive)
    as Hp.
  change (_ = ?r)
    with (codec.Encode codec.NewJPEGEncoder processed (mem w1) = r) in Hj.
  change (_ = ?r)
    with (codec.Encode codec.NewPNGEncoder processed (mem w1) = r) in Hp.
  assert (encodePhoto codec.NewPNGEncoder codec.NewJPEGEncoder
            processed format w1 = Ok (encoded, None) w1) as ->.
  { unfold encodePhoto, selectEncoder, zoom, encoded, header.
    case_decide; [rewrite Hp|rewrite Hj]; by rewrite with_mem_id. }
  simpl. unfold zoom.
  rewrite (image.ID_chain processed (mem w1) _ Hlive). rewrite with_mem_id.
  unfold Save.
  change (storage.Save storage _ encoded (store w1)) with saved.
  specialize (Hfail id encoded (store w)). fold saved in Hfail.
  destruct saved as [s [err|]]; [|done].
  eexists err, _. split; [done|]. split; [reflexivity|].
  unfold published_since. simpl. rewrite drop_app_length.
  split_and!; try done.
  apply Forall_singleton. done.
Qed.

End builtin.

(** *** Collaborators for trying the facade *)

(** A subject that only records what it is notified of. *)
Definition recording : events.Subject (list events.Event) :=
  events.mkSubject _ (λ _ b, b) (λ _ b, b) (λ ev b, b ++ [ev]).

(** A storage whose [Save] always fails, and which keeps the calls it
    got. *)
Definition failing : storage.Storage (list (string * bytes)) :=
  storage.mkStorage _
    (λ id data s, (s ++ [(id, data)], Some (errorString "disk full")))
    (λ _ _, (None, Some storage.ErrNotFound)).

(** An encoder that always fails. *)
Definition broken : codec.Encoder :=
  codec.mkEncoder (λ _, mret (None, Some (errorString "encoder failed")))
                  "PNG".

Definition env0 : Env := mkEnv (λ _, x2a) 7 1000 1700000000000000000.

Definition start {S} (s : S) : World (list events.Event) S :=
  mkWorld (image.mkMem [] []) [] s [].

Lemma applyFilters_history_witness :
  ∃ photo w1 processed meta m',
    createPhoto recording env0 "portrait" (start tt) = Ok photo w1 ∧
    applyFilters photo ["grayscale"; "sepia"; "blur"] w1 = Ok processed w1 ∧
    @image.Metadata doubling processed (mem w1) = Ok meta m' ∧
    image.history m' meta = ["grayscale"; "sepia"; "blur"].
Proof.
  destruct (@applyFilters_history doubling _ _ recording env0 "portrait"
              ["grayscale"; "sepia"; "blur"] (start tt) _ _ _ _
              eq_refl eq_refl)
    as (meta & m' & Hread & Hhist & _).
  eexists _, _, _, meta, m'.
  split_and!; [reflexivity|reflexivity|exact Hread|exact Hhist].
Defined.

Lemma storage_failure_short_circuits_witness :
  let encoded :=
    Some (codec.pngHeader ++ map (rand_Read env0) (seq 0 defaultDataSize)) in
  let id := "photo-" +:+ decimal (time_Now_UnixNano env0) in
  ∃ w',
    Facade_CaptureAndProcess recording failing env0 "portrait"
      ["grayscale"; "sepia"] "png" (start [])
      = Ok (None, Some (Errorf_wrap "save photo" (errorString "disk full")))
           w' ∧
    Error (Errorf_wrap "save photo" (errorString "disk full"))
      = "save photo: disk full" ∧
    store w' = [(id, encoded)] ∧
    published_since (start []) w' = [captured (image.BasicImagePtr 0)].
Proof.
  intros encoded id.
  destruct (storage_failure_short_circuits recording failing env0 "portrait"
              ["grayscale"; "sepia"] "png" (start []))
    as (err & w' & Hsaved & Hrun & Herror & _ & Hstore & Hpublished & _).
  - done.
  - repeat constructor; done.
  - injection Hsaved as <-. by exists w'.
Defined.

(** C3 as stated fails on a list with an empty filter name: the constructor
    of the decorator panics, and [CaptureAndProcess] does not return; the
    storage has received no call when it does, and the creation has been
    published. *)
Lemma storage_failure_empty_filter_name :
  (∀ id data s, (storage.Save failing id data s).2 ≠ None) ∧
  ∃ w',
    Facade_CaptureAndProcess recording failing env0 "portrait"
      ["grayscale"; ""] "png" (start [])
    = Panic "filter cannot be empty" w' ∧
    store w' = [] ∧
    published w' = [captured (image.BasicImagePtr 0)].
Proof. split; [done|]. eexists. split; [vm_compute; reflexivity|done]. Qed.

Lemma encode_failure_aborts_witness :
  ∃ w',
    CaptureAndProcess recording storage.MapAdapter broken broken env0
      "portrait" ["grayscale"] "png" (start storage.NewMapAdapter)
      = Ok (None, Some (Errorf_wrap "encode photo"
                          (errorString "encoder failed"))) w' ∧
    Unwrap (Errorf_wrap "encode photo" (errorString "encoder failed"))
      = Some (errorString "encoder failed") ∧
    store w' = storage.NewMapAdapter ∧
    published_since (start storage.NewMapAdapter) w'
      = [captured (image.BasicImagePtr 0)] ∧
    Forall (λ ev, events.Type_ ev ≠ events.EventImageProcessed)
           (published_since (start storage.NewMapAdapter) w').
Proof.
  exact (encode_failure_aborts recording storage.MapAdapter broken broken
           env0 "portrait" ["grayscale"] "png"
           (start storage.NewMapAdapter) _ _ _ _ _ _ _
           eq_refl eq_refl eq_refl).
Defined.

(** *** The factory and the paths through the facade *)

(** Every photo of the factory is a new object with a rating from 1 to 5,
    1024 bytes of payload, an empty [Filters] (the literal [[]string{}]: no
    element and no room for one), the default dimensions and format, a
    non-empty ID that is also the descriptor's, and the description of its
    type ("Standard photo" for an unknown type); the existing objects and
    the filter arrays are untouched. *)
Theorem CreatePhoto_well_formed (env : Env) (photoType : string)
    (m : image.Mem) :
  ∃ b m',
    CreatePhoto env photoType m
      = Ok (image.BasicImagePtr (length (image.objects m))) m' ∧
    image.objects m' = image.objects m ++ [b] ∧
    image.slices m' = image.slices m ∧
    (1 ≤ image.Rating (image.metadata b) ≤ 5)%Z ∧
    length (bytes_of (image.data b)) = 1024 ∧
    image.data b ≠ None ∧
    image.id b ≠ "" ∧
    image.ID (image.metadata b) = image.id b ∧
    len (image.Filters (image.metadata b)) = 0 ∧
    cap (image.Filters (image.metadata b)) = 0 ∧
    image.Width (image.metadata b) = 1920%Z ∧
    image.Height (image.metadata b) = 1080%Z ∧
    image.Format (image.metadata b) = "JPEG" ∧
    image.Description (image.metadata b)
      = (if decide (photoType = "landscape") then "Beautiful landscape photo"
         else if decide (photoType = "portrait") then "Portrait photo"
         else "Standard photo").
Proof.
  exists (created env photoType). eexists. split; [reflexivity|]. simpl.
  pose proof (Z.mod_pos_bound (rand_Int env) 5 ltac:(lia)) as Hmod.
  unfold maxRating, minRating.
  split_and!; try done; lia.
Qed.

Section facade_facts.
Context {B : Type} (subject : events.Subject B).

(** With the map adapter as storage and filter names that are not empty,
    [CaptureAndProcess] returns the header of the format asked for (PNG when
    the format is "png" in any letter case, JPEG otherwise) followed by the
    payload of the photo, with a [nil] error; the same bytes are then loaded
    from the adapter under the photo's ID, no other entry is touched, and
    the events published are the creation and then the processing of the
    wrapped photo. *)
Theorem CaptureAndProcess_stores_and_publishes env photoType filters format
    (w : World B (gmap string bytes)) :
  Forall (λ f, f ≠ "") filters →
  let photo := image.BasicImagePtr (length (image.objects (mem w))) in
  let processed := foldl image.FilterDecoratorPtr photo filters in
  let header :=
    if decide (ToLower format = FormatPNG) then codec.pngHeader
    else codec.jpegHeader in
  let encoded :=
    Some (header ++ map (rand_Read env) (seq 0 defaultDataSize)) in
  let id := "photo-" +:+ decimal (time_Now_UnixNano env) in
  ∃ w',
    Facade_CaptureAndProcess subject storage.MapAdapter
      env photoType filters format w = Ok (encoded, None) w' ∧
    storage.Load storage.MapAdapter id (store w') = (encoded, None) ∧
    (∀ id', id' ≠ id → store w' !! id' = store w !! id') ∧
    published_since w w' = [captured photo; processed_event processed].
Proof.
  intros Hne photo processed header encoded id.
  unfold Facade_CaptureAndProcess, CaptureAndProcess, mbind, M_bind.
  rewrite createPhoto_spec. rewrite applyFilters_ok by done.
  fold photo. fold processed.
  set (w1 := mkWorld _ _ _ _).
  assert (image.objects (mem w1) !! image.base processed
          = Some (created env photoType)) as Hlive.
  { unfold processed. rewrite base_foldl. simpl.
    by apply list_lookup_middle. }
  pose proof (codec.Encode_live codec.jpegHeader processed (mem w1) _ Hlive)
    as Hj.
  pose proof (codec.Encode_live codec.pngHeader processed (mem w1) _ Hlive)
    as Hp.
  change (_ = ?r)
    with (codec.Encode codec.NewJPEGEncoder processed (mem w1) = r) in Hj.
  change (_ = ?r)
    with (codec.Encode codec.NewPNGEncoder processed (mem w1) = r) in Hp.
  assert (encodePhoto codec.NewPNGEncoder codec.NewJPEGEncoder
            processed format w1 = Ok (encoded, None) w1) as ->.
  { unfold encodePhoto, selectEncoder, zoom, encoded, header.
    case_decide; [rewrite Hp|rewrite Hj]; by rewrite with_mem_id. }
  simpl. unfold zoom.
  rewrite (image.ID_chain processed (mem w1) _ Hlive). rewrite with_mem_id.
  unfold Save. simpl.
  eexists. split; [reflexivity|]. simpl.
  unfold storage.MapAdapter_Load, published_since. simpl.
  split_and!.
  - by rewrite lookup_insert_eq.
  - intros id' Hid'. by rewrite lookup_insert_ne.
  - by rewrite <- app_assoc, drop_app_length.
Qed.

(** A list with an empty filter name stops the pipeline before anything is
    encoded or saved: [applyFilters] panics on it and so does
    [CaptureAndProcess], whatever the storage and the encoders, in the
    state the creation of the photo left: the storage has received nothing
    and the creation event is the only one published. On a list without an
    empty name, [applyFilters] returns the photo under one wrapper per name,
    in order, and changes no state. *)
Theorem empty_filter_name_panics {S} (storage : storage.Storage S)
    (NewPNGEncoder NewJPEGEncoder : codec.Encoder)
    env photoType photo filters format (w : World B S) :
  if decide ("" ∈ filters) then
    applyFilters photo filters w = Panic "filter cannot be empty" w ∧
    ∃ w1,
      createPhoto subject env photoType w
        = Ok (image.BasicImagePtr (length (image.objects (mem w)))) w1 ∧
      CaptureAndProcess subject storage NewPNGEncoder NewJPEGEncoder
        env photoType filters format w
        = Panic "filter cannot be empty" w1 ∧
      store w1 = store w ∧
      published_since w w1
        = [captured (image.BasicImagePtr (length (image.objects (mem w))))]
  else
    ∃ processed,
      applyFilters photo filters w = Ok processed w ∧
      image.base processed = image.base photo ∧
      image.names processed = image.names photo ++ filters.
Proof.
  case_decide as Hin.
  - split; [by apply applyFilters_empty_name|].
    eexists. split; [apply createPhoto_spec|].
    unfold CaptureAndProcess, mbind, M_bind.
    rewrite createPhoto_spec. rewrite applyFilters_empty_name by done.
    unfold published_since. simpl. by rewrite drop_app_length.
  - eexists. split; [|split; [apply base_foldl|apply names_foldl]].
    apply applyFilters_ok. apply Forall_forall. intros f Hf ->. done.
Qed.

(** [QuickCapture] never fails: it returns a new unfiltered photo with a
    [nil] error, publishes the creation event for it and nothing else, and
    leaves the storage as it was. *)
Theorem QuickCapture_publishes_once {S} env photoType (w : World B S) :
  ∃ w',
    QuickCapture subject env photoType w
      = Ok (image.BasicImagePtr (length (image.objects (mem w))), None) w' ∧
    published_since w w'
      = [captured (image.BasicImagePtr (length (image.objects (mem w))))] ∧
    store w' = store w ∧
    image.objects (mem w')
      = image.objects (mem w) ++ [created env photoType] ∧
    image.names (image.BasicImagePtr (length (image.objects (mem w)))) = [].
Proof.
  unfold QuickCapture, mbind, M_bind. rewrite createPhoto_spec.
  eexists. split; [reflexivity|]. unfold published_since. simpl.
  by rewrite drop_app_length.
Qed.

End facade_facts.

Lemma CaptureAndProcess_stores_and_publishes_witness :
  let photo := image.BasicImagePtr 0 in
  let processed :=
    image.FilterDecoratorPtr (image.FilterDecoratorPtr photo "grayscale")
      "sepia" in
  let encoded :=
    Some (codec.pngHeader ++ map (rand_Read env0) (seq 0 defaultDataSize)) in
  let id := "photo-" +:+ decimal (time_Now_UnixNano env0) in
  ∃ w',
    Facade_CaptureAndProcess recording storage.MapAdapter
      env0 "portrait" ["grayscale"; "sepia"] "PNG"
      (start storage.NewMapAdapter) = Ok (encoded, None) w' ∧
    storage.Load storage.MapAdapter id (store w') = (encoded, None) ∧
    (∀ id', id' ≠ id → store w' !! id' = storage.NewMapAdapter !! id') ∧
    published_since (start storage.NewMapAdapter) w'
      = [captured photo; processed_event processed].
Proof.
  apply (CaptureAndProcess_stores_and_publishes recording env0 "portrait"
           ["grayscale"; "sepia"] "PNG" (start storage.NewMapAdapter)).
  repeat constructor; done.
Defined.

End camera.


(** ** Package gallery *)

Module gallery.

(** The zero value of a cell of [[]image.Image]; [copy] overwrites every
    cell of the new array before any is read. *)
#[local] Instance Image_inhabited : Inhabited image.Image :=
  populate (image.BasicImagePtr 0).

(** Equality of images can be decided. *)
#[local] Instance Image_eq_dec : EqDecision image.Image.
Proof. solve_decision. Defined.

(** [Time.Before] and [Time.After] on instants. *)
Definition Before (t u : Z) : bool := (t <? u)%Z.
Definition After (t u : Z) : bool := (u <? t)%Z.

(** An image is live when the object behind it exists; a method called on
    one that is not (a [nil] pointer) panics. *)
Definition live (m : image.Mem) (img : image.Image) : Prop :=
  is_Some (image.objects m !! image.base img).

#[local] Instance live_dec m img : Decision (live m img).
Proof. unfold live. apply _. Defined.

(** What [img.Metadata()] returns in every field but [Filters]: the
    descriptor stored in the innermost object; nothing where the call
    panics. *)
Definition descriptor (m : image.Mem) (img : image.Image)
    : option image.ImageMetadata :=
  image.metadata <$> image.objects m !! image.base img.

Definition CapturedAt (m : image.Mem) (img : image.Image) : option Z :=
  image.CapturedAt <$> descriptor m img.

Definition Rating (m : image.Mem) (img : image.Image) : option Z :=
  image.Rating <$> descriptor m img.

(** What [img.ID()] returns; nothing where the call panics. *)
Definition ID_of (m : image.Mem) (img : image.Image) : option string :=
  image.id <$> image.objects m !! image.base img.

Lemma Metadata_dangling `{!GrowthPolicy} img m :
  ¬ live m img → image.Metadata img m = Panic image.nil_dereference m.
Proof.
  unfold live. rewrite <- eq_None_not_Some.
  induction img as [p|w IH f]; simpl; intros Hb.
  - unfold mbind, M_bind, image.deref. by rewrite Hb.
  - unfold mbind, M_bind. by rewrite IH.
Qed.

(** The keys the comparisons read through [Metadata] are these; the call
    writes no object, so that every key and every image that is live stay
    so from one comparison to the next; and where the readers give nothing
    the call panics. *)
Lemma Metadata_keys `{!GrowthPolicy} img m :
  match image.Metadata img m with
  | Ok meta m' =>
      CapturedAt m img = Some (image.CapturedAt meta) ∧
      Rating m img = Some (image.Rating meta) ∧
      image.objects m' = image.objects m
  | Panic msg m' =>
      msg = image.nil_dereference ∧ m' = m ∧
      CapturedAt m img = None ∧ Rating m img = None
  end.
Proof.
  destruct (decide (live m img)) as [[b Hb]|Hdead].
  - destruct (image.Metadata_returns img m b Hb) as (meta & m' & Hread).
    rewrite Hread.
    destruct (image.Metadata_stored img m meta m' Hread)
      as (b' & Hb' & Hfields & Hobj).
    unfold CapturedAt, Rating, descriptor. rewrite Hb'. simpl.
    rewrite <- Hfields. done.
  - rewrite (Metadata_dangling img m Hdead).
    unfold CapturedAt, Rating, descriptor.
    apply eq_None_not_Some in Hdead. by rewrite Hdead.
Qed.

(** The same for [ID]. *)
Lemma ID_of_reads `{!GrowthPolicy} img m :
  match image.ID_ img m with
  | Ok id m' => ID_of m img = Some id ∧ m' = m
  | Panic msg m' =>
      msg = image.nil_dereference ∧ m' = m ∧ ID_of m img = None
  end.
Proof.
  unfold ID_of. induction img as [p|w IH f]; simpl; [|done].
  unfold mbind, M_bind, image.deref.
  by destruct (image.objects m !! p).
Qed.

(** What a comparison does: it returns a boolean, or panics. *)
Inductive verdict :=
  | Less (b : bool)
  | Panics (msg : string).

#[local] Instance verdict_eq_dec : EqDecision verdict.
Proof. solve_decision. Defined.

Section sort.
Context {A : Type}.

(** Two neighbours in a sorted slice: the second is not less than the
    first. *)
Definition in_order (less : A → A → verdict) : relation A :=
  λ a b, less b a = Less false.

(** [sort.Slice(x, less)], by the contract the library documents: the
    elements of [x] are rearranged in place into an order that
    [sort.SliceIsSorted] accepts; which one, among elements neither of which
    is less than the other, is left open ("the sort is not guaranteed to be
    stable"). A panic of [less] ends the sort where it stands; [less] is
    only called on two cells of [x]. *)
Inductive sort_Slice (less : A → A → verdict) (h : heap A) (x : slice)
    : outcome (heap A) unit → Prop :=
  | sort_returns l :
      l ≡ₚ contents h x → Sorted (in_order less) l →
      sort_Slice less h x (Ok tt (alter (store_at (off x) l) (ptr x) h))
  | sort_panics l i j a b msg :
      l ≡ₚ contents h x →
      contents h x !! i = Some a → contents h x !! j = Some b → i ≠ j →
      less a b = Panics msg →
      sort_Slice less h x
        (Panic msg (alter (store_at (off x) l) (ptr x) h)).

End sort.

#[local] Instance in_order_dec {A} (less : A → A → verdict) :
  RelDecision (in_order less).
Proof. intros x y. unfold in_order. apply _. Defined.

(** The body shared by the [Sort] methods: copy, then sort the copy. *)
Definition sorted_copy (less : image.Image → image.Image → verdict)
    (h : heap image.Image) (images : slice)
    (o : outcome (heap image.Image) slice) : Prop :=
  let (h1, s) := make h (len images) in
  let h2 := copy h1 s images in
  match o with
  | Ok sorted h' => sort_Slice less h2 s (Ok tt h') ∧ sorted = s
  | Panic msg h' => sort_Slice less h2 s (Panic msg h')
  end.

(** A [less] of the strategies: the key of either image is read, which
    panics on an image that is not live, and the two are compared. *)
Definition compare_keys {K} (key : image.Image → option K)
    (lt : K → K → bool) (x y : image.Image) : verdict :=
  match key x, key y with
  | Some kx, Some ky => Less (lt kx ky)
  | _, _ => Panics image.nil_dereference
  end.

Definition SortByDate_less (ascending : bool) (m : image.Mem)
    : image.Image → image.Image → verdict :=
  if ascending then compare_keys (CapturedAt m) Before
  else compare_keys (CapturedAt m) After.

Definition SortByDate_Sort (ascending : bool) (m : image.Mem) :=
  sorted_copy (SortByDate_less ascending m).


Definition SortByRating_less (ascending : bool) (m : image.Mem)
    : image.Image → image.Image → verdict :=
  if ascending then compare_keys (Rating m) Z.ltb
  else compare_keys (Rating m) Z.gtb.

Definition SortByRating_Sort (ascending : bool) (m : image.Mem) :=
  sorted_copy (SortByRating_less ascending m).

Definition SortByRating_Name (ascending : bool) : string :=
  if ascending then "Rating(Asc)" else "Rating(Desc)".

(** [s > t] on strings. *)
Definition gtb (s t : string) : bool := String.ltb t s.

Definition SortByID_less (ascending : bool) (m : image.Mem)
    : image.Image → image.Image → verdict :=
  if ascending then compare_keys (ID_of m) String.ltb
  else compare_keys (ID_of m) gtb.

Definition SortByID_Sort (ascending : bool) (m : image.Mem) :=
  sorted_copy (SortByID_less ascending m).


(** *** What a [Sort] guarantees *)

(** The order of a direction on keys. *)
Definition key_le (ascending : bool) (k1 k2 : Z) : Prop :=
  if ascending then (k1 ≤ k2)%Z else (k2 ≤ k1)%Z.

(** The order of a direction on IDs, which compare as strings of bytes. *)
Definition ID_le (ascending : bool) (s t : string) : Prop :=
  if ascending then String.leb s t = true else String.leb t s = true.

(** Two images whose keys can be read and are in order. *)
Definition by_key {K} (key : image.Image → option K) (le : relation K)
    : relation image.Image :=
  λ x y, ∃ kx ky, key x = Some kx ∧ key y = Some ky ∧ le kx ky.

(** The arrays of the caller are as they were, and so is what any of its
    slices shows. *)
Definition kept (h h' : heap image.Image) : Prop :=
  (∀ p, p < length h → array h' p = array h p) ∧
  (∀ t, valid h t → contents h' t = contents h t).

(** The result of a [Sort] by [key]: the images of the input, ordered by
    key, in an array of their own, every array of the caller as it was. *)
Definition sorted_result {K} (key : image.Image → option K) (le : relation K)
    (h : heap image.Image) (images : slice)
    (h' : heap image.Image) (sorted : slice) : Prop :=
  contents h' sorted ≡ₚ contents h images ∧
  StronglySorted (by_key key le) (contents h' sorted) ∧
  valid h' sorted ∧ ptr sorted = length h ∧ len sorted = len images ∧
  kept h h'.

(** Ties keep the order of the input: the images of each key come in the
    same order before and after. *)
Definition stable {K} `{!EqDecision K} (key : image.Image → option K)
    (before after : list image.Image) : Prop :=
  ∀ k, filter (λ x, key x = k) after = filter (λ x, key x = k) before.

(** The slices a [Sort] returns on: every image is live, or there is
    nothing to compare. *)
Definition sortable (m : image.Mem) (l : list image.Image) : Prop :=
  Forall (live m) l ∨ length l < 2.

#[local] Instance sortable_dec m l : Decision (sortable m l).
Proof. unfold sortable. apply _. Defined.

Lemma Sorted_mono_in {A} (R1 R2 : relation A) l :
  (∀ x y, x ∈ l → y ∈ l → R1 x y → R2 x y) → Sorted R1 l → Sorted R2 l.
Proof.
  intros Himpl Hs. induction Hs as [|x l Hs IH Hhd]; constructor.
  - apply IH. intros a b Ha Hb. apply Himpl; by right.
  - destruct Hhd as [|y l' Hxy]; constructor.
    apply Himpl; [by left|right; by left|done].
Qed.

Lemma kept_contents (h h' : heap image.Image) :
  (∀ p, p < length h → array h' p = array h p) → kept h h'.
Proof.
  intros Hframe. split; [done|].
  intros t Ht. destruct (decide (ptr t < length h)) as [Hp|Hp].
  { apply contents_frame. by apply Hframe. }
  assert (len t = 0) as Hz.
  { destruct Ht as [? Hcap]. rewrite array_out in Hcap by lia.
    simpl in Hcap. lia. }
  unfold contents, seg. by rewrite Hz.
Qed.

(** The copy is made in a new array, which the sort rearranges. *)
Lemma sorted_copy_inv less h images o :
  valid h images →
  sorted_copy less h images o →
  ∃ l h', l ≡ₚ contents h images ∧
    let s := Slice (length h) 0 (len images) (len images) in
    contents h' s = l ∧ valid h' s ∧ kept h h' ∧
    ((o = Ok s h' ∧ Sorted (in_order less) l) ∨
     (∃ msg i j a b,
        o = Panic msg h' ∧
        contents h images !! i = Some a ∧ contents h images !! j = Some b ∧
        i ≠ j ∧ less a b = Panics msg)).
Proof.
  intros Hv. unfold sorted_copy.
  destruct (make_copy h images Hv)
    as (Hc & Hptr & Hoff & Hlen & Harrlen & Hheap & Harr).
  simpl in *.
  set (s := Slice (length h) 0 (len images) (len images)) in *.
  set (h2 := copy _ s images) in *.
  assert (∀ l, l ≡ₚ contents h images →
            contents (alter (store_at (off s) l) (ptr s) h2) s = l ∧
            valid (alter (store_at (off s) l) (ptr s) h2) s ∧
            kept h (alter (store_at (off s) l) (ptr s) h2)) as Hstored.
  { intros l Hperm.
    assert (length l = len images) as Hl.
    { rewrite Hperm. by apply contents_length. }
    assert (array (alter (store_at (off s) l) (ptr s) h2) (length h) = l)
      as Hnew.
    { simpl. rewrite array_alter_eq by lia.
      unfold store_at. simpl. rewrite drop_ge by lia. by rewrite app_nil_r. }
    split_and!.
    - unfold contents. simpl in *. rewrite Hnew.
      unfold seg. rewrite drop_0. apply take_ge. lia.
    - unfold valid. simpl in *. rewrite Hnew. lia.
    - apply kept_contents. intros p Hlt. simpl.
      rewrite array_alter_ne by lia. by apply Harr. }
  destruct o as [sorted h'|msg h'].
  - intros [Hsort ->]. inversion Hsort as [l Hperm Hsorted Heq|]. subst h'.
    rewrite Hc in Hperm. destruct (Hstored l Hperm) as (? & ? & ?).
    exists l, (alter (store_at (off s) l) (ptr s) h2).
    split_and!; try done. by left.
  - intros Hsort.
    inversion Hsort as [|l i j a b msg' Hperm Hi Hj Hij Hless [Hmsg Heq]].
    subst msg' h'. rewrite Hc in Hperm, Hi, Hj.
    destruct (Hstored l Hperm) as (? & ? & ?).
    exists l, (alter (store_at (off s) l) (ptr s) h2).
    split_and!; try done. right. by exists msg, i, j, a, b.
Qed.

Lemma sorted_copy_returns less h images l :
  valid h images →
  l ≡ₚ contents h images → Sorted (in_order less) l →
  ∃ h' sorted, sorted_copy less h images (Ok sorted h').
Proof.
  intros Hv Hperm Hsorted. unfold sorted_copy.
  destruct (make_copy h images Hv) as (Hc & _). simpl in *.
  eexists _, _. split; [|done].
  apply (sort_returns _ _ _ l); [by rewrite Hc|done].
Qed.

Lemma sorted_copy_panics less h images i j a b msg :
  valid h images →
  contents h images !! i = Some a → contents h images !! j = Some b →
  i ≠ j → less a b = Panics msg →
  ∃ h', sorted_copy less h images (Panic msg h').
Proof.
  intros Hv Hi Hj Hij Hless. unfold sorted_copy.
  destruct (make_copy h images Hv) as (Hc & _). simpl in *.
  eexists. apply (sort_panics _ _ _ (contents h images) i j a b);
    by rewrite ?Hc.
Qed.

(** *** A strategy that compares keys *)

Section strategy.
Context {K : Type} (key : image.Image → option K).
Context (lt : K → K → bool) (le : relation K) (m : image.Mem).
Context `{!Transitive le, !Total le}.
Hypothesis key_live : ∀ x, is_Some (key x) ↔ live m x.
Hypothesis lt_le : ∀ a b, lt b a = false ↔ le a b.

Lemma in_order_by_key x y :
  in_order (compare_keys key lt) x y ↔ by_key key le x y.
Proof.
  unfold in_order, compare_keys, by_key. split.
  - destruct (key y) as [ky|], (key x) as [kx|]; try done.
    intros [= Hlt]. exists kx, ky. split_and!; try done. by apply lt_le.
  - intros (kx & ky & -> & -> & Hle). f_equal. by apply lt_le.
Qed.

#[local] Instance by_key_trans : Transitive (by_key key le).
Proof.
  intros x y z (kx & ky & Hx & Hy & Hxy) (ky' & kz & Hy' & Hz & Hyz).
  rewrite Hy in Hy'. injection Hy' as <-.
  exists kx, kz. split_and!; try done. by etrans.
Qed.

Lemma dangling_panics x y :
  ¬ live m x ∨ ¬ live m y →
  compare_keys key lt x y = Panics image.nil_dereference.
Proof.
  rewrite <- !key_live, <- !eq_None_not_Some. unfold compare_keys.
  intros [-> | ->]; [done|]. by destruct (key x).
Qed.

Lemma panics_dangling x y msg :
  compare_keys key lt x y = Panics msg → msg = image.nil_dereference.
Proof.
  unfold compare_keys. destruct (key x), (key y); by intros [= <-].
Qed.

(** An order in which [less] never holds from right to left; it is the
    order of the keys wherever both can be read. *)
Definition weakly (x y : image.Image) : Prop :=
  compare_keys key lt y x ≠ Less true.

#[local] Instance weakly_dec : RelDecision weakly.
Proof. intros x y. unfold weakly. apply _. Defined.

#[local] Instance weakly_total : Total weakly.
Proof.
  intros x y. unfold weakly, compare_keys.
  destruct (key x) as [kx|], (key y) as [ky|]; try (by left).
  destruct (total le kx ky) as [Hle|Hle]; apply lt_le in Hle.
  - left. by rewrite Hle.
  - right. by rewrite Hle.
Qed.

Lemma sorted_exists l :
  sortable m l →
  ∃ l', l' ≡ₚ l ∧ Sorted (in_order (compare_keys key lt)) l'.
Proof.
  intros [Hlive|Hshort].
  - exists (merge_sort weakly l). split; [apply merge_sort_Permutation|].
    eapply Sorted_mono_in; [|apply Sorted_merge_sort, _].
    intros x y Hx Hy. rewrite merge_sort_Permutation in Hx, Hy.
    rewrite Forall_forall in Hlive.
    destruct (proj2 (key_live x) (Hlive x Hx)) as [kx Hkx].
    destruct (proj2 (key_live y) (Hlive y Hy)) as [ky Hky].
    unfold weakly, in_order, compare_keys. rewrite Hkx, Hky.
    by destruct (lt ky kx).
  - exists l. split; [done|].
    destruct l as [|x [|y l]]; simpl in *; [constructor|by repeat constructor|lia].
Qed.

Lemma Sorted_live l :
  Sorted (in_order (compare_keys key lt)) l → 2 ≤ length l →
  Forall (live m) l.
Proof.
  induction 1 as [|x l Hs IH Hhd]; simpl; [lia|]. intros Hlen.
  destruct Hhd as [|y l Hxy]; simpl in *; [lia|].
  apply in_order_by_key in Hxy as (kx & ky & Hkx & Hky & _).
  assert (live m x) by (apply key_live; by rewrite Hkx).
  assert (live m y) by (apply key_live; by rewrite Hky).
  constructor; [done|].
  destruct l as [|z l]; [by repeat constructor|]. apply IH. simpl. lia.
Qed.

Lemma panic_exists l :
  ¬ sortable m l →
  ∃ i j a b, l !! i = Some a ∧ l !! j = Some b ∧ i ≠ j ∧
             compare_keys key lt a b = Panics image.nil_dereference.
Proof.
  intros Hns.
  assert (¬ Forall (live m) l) as Hdead by (intros ?; apply Hns; by left).
  assert (2 ≤ length l) as Hlen.
  { destruct (decide (length l < 2)); [|lia]. exfalso. apply Hns. by right. }
  apply not_Forall_Exists in Hdead; [|apply _].
  apply Exists_exists in Hdead as (a & Ha & Hdead).
  apply list_elem_of_lookup in Ha as [i Hi].
  destruct (lookup_lt_is_Some_2 l (if decide (i = 0) then 1 else 0))
    as [b Hb]; [case_decide; lia|].
  exists i, (if decide (i = 0) then 1 else 0), a, b.
  split_and!; [done|done|case_decide; lia|].
  apply dangling_panics. by left.
Qed.

(** What a strategy does on every slice: where every image is live (or
    there is at most one) it returns, and what it returns is a
    [sorted_result]; anywhere else the first comparison that reads an
    image that is not live panics, and the caller's slices are as they
    were. *)
Lemma strategy_sort h images :
  valid h images →
  let Sort := sorted_copy (compare_keys key lt) h images in
  (sortable m (contents h images) →
     (∃ h' sorted, Sort (Ok sorted h')) ∧
     (∀ o, Sort o →
        ∃ h' sorted, o = Ok sorted h' ∧
                     sorted_result key le h images h' sorted)) ∧
  (¬ sortable m (contents h images) →
     (∃ h', Sort (Panic image.nil_dereference h')) ∧
     (∀ o, Sort o → ∃ h', o = Panic image.nil_dereference h' ∧ kept h h')).
Proof.
  intros Hv Sort. split.
  - intros Hok. split.
    + destruct (sorted_exists _ Hok) as (l & Hperm & Hsorted).
      by apply (sorted_copy_returns _ h images l).
    + intros o Ho.
      destruct (sorted_copy_inv _ h images o Hv Ho)
        as (l & h' & Hperm & Hc & Hvs & Hkept & Hcase). simpl in *.
      destruct Hcase as [[-> Hsorted]|(msg & i & j & a & b & _ & Hi & Hj & Hij & Hless)].
      * eexists _, _. split; [done|]. unfold sorted_result. rewrite Hc.
        split_and!; try done.
        apply Sorted_StronglySorted; [apply _|].
        eapply Sorted_mono_in; [|exact Hsorted].
        intros x y _ _. by apply in_order_by_key.
      * exfalso. destruct Hok as [Hlive|Hshort].
        -- rewrite Forall_forall in Hlive.
           apply list_elem_of_lookup_2 in Hi, Hj.
           destruct (proj2 (key_live a) (Hlive a Hi)) as [ka Hka].
           destruct (proj2 (key_live b) (Hlive b Hj)) as [kb Hkb].
           unfold compare_keys in Hless. by rewrite Hka, Hkb in Hless.
        -- apply lookup_lt_Some in Hi, Hj. lia.
  - intros Hno. split.
    + destruct (panic_exists _ Hno) as (i & j & a & b & Hi & Hj & Hij & Hless).
      by apply (sorted_copy_panics _ h images i j a b).
    + intros o Ho.
      destruct (sorted_copy_inv _ h images o Hv Ho)
        as (l & h' & Hperm & Hc & Hvs & Hkept & Hcase). simpl in *.
      destruct Hcase as [[-> Hsorted]|(msg & i & j & a & b & -> & Hi & Hj & Hij & Hless)].
      * exfalso. apply Hno.
        destruct (decide (length l < 2)) as [Hshort|Hlong].
        -- right. by rewrite <- Hperm.
        -- left. rewrite <- Hperm. apply Sorted_live; [done|lia].
      * apply panics_dangling in Hless as ->. by exists h'.
Qed.

End strategy.

(** What a [Sort] method does on every slice: where every image is live
    (or there is at most one, and nothing to compare) it returns, and what
    it returns is a [sorted_result]; anywhere else a comparison reads an
    image that is not live and [Sort] panics, the caller's slices being as
    they were. *)
Definition sorts_by {K} (key : image.Image → option K) (le : relation K)
    (m : image.Mem)
    (Sort : heap image.Image → slice →
            outcome (heap image.Image) slice → Prop) : Prop :=
  ∀ h images,
    valid h images →
    (sortable m (contents h images) →
       (∃ h' sorted, Sort h images (Ok sorted h')) ∧
       (∀ o, Sort h images o →
          ∃ h' sorted, o = Ok sorted h' ∧
                       sorted_result key le h images h' sorted)) ∧
    (¬ sortable m (contents h images) →
       (∃ h', Sort h images (Panic image.nil_dereference h')) ∧
       (∀ o, Sort h images o →
          ∃ h', o = Panic image.nil_dereference h' ∧ kept h h')).

#[local] Instance key_le_trans ascending : Transitive (key_le ascending).
Proof. intros x y z. unfold key_le. destruct ascending; lia. Qed.

#[local] Instance key_le_total ascending : Total (key_le ascending).
Proof. intros x y. unfold key_le. destruct ascending; lia. Qed.

Lemma ltb_false_leb s t : String.ltb t s = false ↔ String.leb s t = true.
Proof.
  unfold String.ltb, String.leb. rewrite (String.compare_antisym t s).
  destruct (String.compare s t); simpl; split; done.
Qed.

Lemma leb_trans s t u :
  String.leb s t = true → String.leb t u = true → String.leb s u = true.
Proof.
  rewrite <- !ltb_false_leb. unfold String.ltb.
  intros Hts Hut.
  destruct (String.compare u s) eqn:Hus; try done.
  apply OrderedTypeEx.String_as_OT.cmp_lt in Hus.
  destruct (String.compare t s) eqn:Hts'; try done.
  - apply OrderedTypeEx.String_as_OT.cmp_eq in Hts'. subst t.
    apply OrderedTypeEx.String_as_OT.cmp_lt in Hus.
    unfold OrderedTypeEx.String_as_OT.cmp in Hus. by rewrite Hus in Hut.
  - rewrite String.compare_antisym in Hts'.
    destruct (String.compare s t) eqn:Hst; try done.
    apply OrderedTypeEx.String_as_OT.cmp_lt in Hst.
    pose proof (OrderedTypeEx.String_as_OT.lt_trans _ _ _ Hus Hst) as Hlt.
    apply OrderedTypeEx.String_as_OT.cmp_lt in Hlt.
    unfold OrderedTypeEx.String_as_OT.cmp in Hlt. by rewrite Hlt in Hut.
Qed.

#[local] Instance ID_le_trans ascending : Transitive (ID_le ascending).
Proof.
  intros x y z. unfold ID_le. destruct ascending; intros H1 H2.
  - by apply (leb_trans _ y).
  - by apply (leb_trans _ y).
Qed.

#[local] Instance ID_le_total ascending : Total (ID_le ascending).
Proof.
  intros x y. unfold ID_le. destruct ascending; apply String.leb_total.
Qed.

Lemma descriptor_live m x : is_Some (descriptor m x) ↔ live m x.
Proof. unfold descriptor, live. apply fmap_is_Some. Qed.

Lemma CapturedAt_live m x : is_Some (CapturedAt m x) ↔ live m x.
Proof. unfold CapturedAt. rewrite fmap_is_Some. apply descriptor_live. Qed.

Lemma Rating_live m x : is_Some (Rating m x) ↔ live m x.
Proof. unfold Rating. rewrite fmap_is_Some. apply descriptor_live. Qed.

Lemma ID_of_live m x : is_Some (ID_of m x) ↔ live m x.
Proof. unfold ID_of, live. apply fmap_is_Some. Qed.

Lemma SortByDate_sorts ascending m :
  sorts_by (CapturedAt m) (key_le ascending) m (SortByDate_Sort ascending m).
Proof.
  intros h images Hv. unfold SortByDate_Sort, SortByDate_less.
  destruct ascending;
    apply (strategy_sort (CapturedAt m) _ _ m); try done;
    try apply CapturedAt_live; try apply _;
    intros a b; unfold Before, After, key_le; apply Z.ltb_ge.
Qed.

Lemma SortByRating_sorts ascending m :
  sorts_by (Rating m) (key_le ascending) m (SortByRating_Sort ascending m).
Proof.
  intros h images Hv. unfold SortByRating_Sort, SortByRating_less.
  destruct ascending;
    apply (strategy_sort (Rating m) _ _ m); try done;
    try apply Rating_live; try apply _;
    intros a b; unfold key_le; rewrite ?Z.gtb_ltb; apply Z.ltb_ge.
Qed.


(** C8, without the order of ties. On every slice of live images, each of
    the four sorts (by capture time or by rating, ascending or descending)
    returns, and what it returns is a new slice holding a permutation of the
    input in the order of the key and of the direction; the input slice and
    every other array of the caller are as they were. *)
Theorem Sort_permutes_in_order ascending m h images :
  valid h images →
  Forall (live m) (contents h images) →
  (∃ h' sorted, SortByDate_Sort ascending m h images (Ok sorted h')) ∧
  (∃ h' sorted, SortByRating_Sort ascending m h images (Ok sorted h')) ∧
  (∀ o, SortByDate_Sort ascending m h images o →
     ∃ h' sorted,
       o = Ok sorted h' ∧
       sorted_result (CapturedAt m) (key_le ascending) h images h' sorted) ∧
  (∀ o, SortByRating_Sort ascending m h images o →
     ∃ h' sorted,
       o = Ok sorted h' ∧
       sorted_result (Rating m) (key_le ascending) h images h' sorted).
Proof.
  intros Hv Hlive.
  assert (sortable m (contents h images)) as Hok by by left.
  destruct (SortByDate_sorts ascending m h images Hv) as [Hdate _].
  destruct (SortByRating_sorts ascending m h images Hv) as [Hrating _].
  destruct (Hdate Hok) as [? ?]. destruct (Hrating Hok) as [? ?]. done.
Qed.

(** *** Two photos with the same rating *)

Definition two_photos : image.Mem :=
  image.mkMem []
    [image.mkBasicImage "photo-1" None
       (image.mkImageMetadata "photo-1" 1920 1080 10 3 nil_slice "JPEG" "");
     image.mkBasicImage "photo-2" None
       (image.mkImageMetadata "photo-2" 1920 1080 10 3 nil_slice "JPEG" "")].

Definition shelf : heap image.Image :=
  [[image.BasicImagePtr 0; image.BasicImagePtr 1]].

Definition on_shelf : slice := Slice 0 0 2 2.

Lemma on_shelf_valid : valid shelf on_shelf.
Proof. unfold valid. simpl. lia. Qed.

Lemma on_shelf_live : Forall (live two_photos) (contents shelf on_shelf).
Proof. repeat constructor; by eexists. Qed.

Lemma Sort_permutes_in_order_witness :
  (∃ h' sorted,
     SortByDate_Sort true two_photos shelf on_shelf (Ok sorted h')) ∧
  (∃ h' sorted,
     SortByRating_Sort true two_photos shelf on_shelf (Ok sorted h')) ∧
  (∀ o, SortByDate_Sort true two_photos shelf on_shelf o →
     ∃ h' sorted,
       o = Ok sorted h' ∧
       sorted_result (CapturedAt two_photos) (key_le true)
         shelf on_shelf h' sorted) ∧
  (∀ o, SortByRating_Sort true two_photos shelf on_shelf o →
     ∃ h' sorted,
       o = Ok sorted h' ∧
       sorted_result (Rating two_photos) (key_le true)
         shelf on_shelf h' sorted).
Proof.
  exact (Sort_permutes_in_order true two_photos shelf on_shelf
           on_shelf_valid on_shelf_live).
Defined.

(** *** Thirteen photos, the last one rated lowest and taken first *)

Definition thirteen_photos : image.Mem :=
  image.mkMem []
    (map (λ i,
            let id := "photo-" +:+ camera.decimal (Z.of_nat i) in
            image.mkBasicImage id None
              (image.mkImageMetadata id 1920 1080
                 (if decide (i = 12) then 5 else 10)
                 (if decide (i = 12) then 1 else 3)
                 nil_slice "JPEG" ""))
         (seq 0 13)).

Definition wall : heap image.Image := [map image.BasicImagePtr (seq 0 13)].

Definition on_wall : slice := Slice 0 0 13 13.

(** What [sort.Slice] leaves in the copy. Above twelve elements the library
    sorts by partition: the pivot, the photo in the middle, changes places
    with the first photo; the last photo, the only one less than the pivot,
    changes places with the second; the pivot then goes behind it. The
    first two photos of the input end up behind photos of the same rating
    and instant that came after them. *)
Definition rehung : heap image.Image :=
  wall ++ [map image.BasicImagePtr [12; 6; 2; 3; 4; 5; 0; 7; 8; 9; 10; 11; 1]].

Definition on_rehung : slice := Slice 1 0 13 13.

(** C8 as stated fails on that wall: the sort by rating and the sort by
    date both return the photos in the order of [rehung], which is in the
    order of the keys but does not keep the input order between photos of
    the same key. *)
Lemma Sort_not_stable :
  valid wall on_wall ∧
  Forall (live thirteen_photos) (contents wall on_wall) ∧
  SortByRating_Sort true thirteen_photos wall on_wall (Ok on_rehung rehung) ∧
  SortByDate_Sort true thirteen_photos wall on_wall (Ok on_rehung rehung) ∧
  ¬ stable (Rating thirteen_photos)
      (contents wall on_wall) (contents rehung on_rehung) ∧
  ¬ stable (CapturedAt thirteen_photos)
      (contents wall on_wall) (contents rehung on_rehung).
Proof.
  assert (∀ less,
            Sorted (in_order less) (contents rehung on_rehung) →
            sorted_copy less wall on_wall (Ok on_rehung rehung)) as Hadmitted.
  { intros less Hsorted. unfold sorted_copy. simpl. split; [|done].
    match goal with
    | |- sort_Slice _ ?h2 ?s _ =>
        pose proof (sort_returns less h2 s (contents rehung on_rehung))
          as Hreturns;
        assert (alter (store_at (off s) (contents rehung on_rehung))
                      (ptr s) h2 = rehung) as Hheap
          by (vm_compute; reflexivity)
    end.
    rewrite Hheap in Hreturns. apply Hreturns; [|done].
    apply (bool_decide_unpack _). vm_compute. done. }
  split_and!.
  - unfold valid. simpl. lia.
  - apply (bool_decide_unpack _). vm_compute. done.
  - apply Hadmitted. apply (bool_decide_unpack _). vm_compute. done.
  - apply Hadmitted. apply (bool_decide_unpack _). vm_compute. done.
  - intros Hstable. specialize (Hstable (Some 3%Z)).
    vm_compute in Hstable. done.
  - intros Hstable. specialize (Hstable (Some 10%Z)).
    vm_compute in Hstable. done.
Qed.

(** *** Sorting by ID *)

(** The third strategy on every slice. Where every image is live (or there
    is at most one), the sort by ID returns, and what it returns is a new
    slice holding a permutation of the input in the order of the IDs as
    strings (byte by byte), ascending or descending as asked, every slice of
    the caller reading what it read. On a slice of two images or more, one
    of which is not live, the sort panics on a [nil] dereference, and every
    slice of the caller reads what it read. *)
Theorem SortByID_permutes_in_order ascending m h images :
  valid h images →
  (sortable m (contents h images) →
     (∃ h' sorted, SortByID_Sort ascending m h images (Ok sorted h')) ∧
     (∀ o, SortByID_Sort ascending m h images o →
        ∃ h' sorted,
          o = Ok sorted h' ∧
          sorted_result (ID_of m) (ID_le ascending) h images h' sorted)) ∧
  (¬ sortable m (contents h images) →
     (∃ h', SortByID_Sort ascending m h images
              (Panic image.nil_dereference h')) ∧
     (∀ o, SortByID_Sort ascending m h images o →
        ∃ h', o = Panic image.nil_dereference h' ∧ kept h h')).
Proof.
  intros Hv. unfold SortByID_Sort, SortByID_less.
  destruct ascending;
    apply (strategy_sort (ID_of m) _ _ m); try done;
    try apply ID_of_live; try apply _;
    intros a b; unfold ID_le, gtb; apply ltb_false_leb.
Qed.

Lemma SortByID_permutes_in_order_witness :
  valid shelf on_shelf ∧
  sortable two_photos (contents shelf on_shelf) ∧
  (∃ h' sorted, SortByID_Sort false two_photos shelf on_shelf (Ok sorted h')) ∧
  (∀ o, SortByID_Sort false two_photos shelf on_shelf o →
     ∃ h' sorted,
       o = Ok sorted h' ∧
       sorted_result (ID_of two_photos) (ID_le false)
         shelf on_shelf h' sorted).
Proof.
  assert (sortable two_photos (contents shelf on_shelf)) as Hok
    by (left; exact on_shelf_live).
  split; [exact on_shelf_valid|]. split; [exact Hok|].
  exact (proj1 (SortByID_permutes_in_order false two_photos shelf on_shelf
                  on_shelf_valid) Hok).
Defined.

(** *** The gallery *)

(** The interface [Sorter]; [Sort] also sees the memory of the images, which
    its comparisons read. *)
Record Sorter := mkSorter {
  Sort : image.Mem → heap image.Image → slice →
         outcome (heap image.Image) slice → Prop;
  Name : string
}.

Definition NewSortByRating (ascending : bool) : Sorter :=
  mkSorter (SortByRating_Sort ascending) (SortByRating_Name ascending).

(** A [Gallery] object, beside the arrays its slice lives in; [sorter] is
    [None] while no strategy is set. *)
Record Gallery := mkGallery {
  images : slice;
  sorter : option Sorter
}.

Section gallery_methods.
Context `{!GrowthPolicy}.

Definition NewGallery (h : heap image.Image) : heap image.Image * Gallery :=
  let (h, s) := make h 0 in (h, mkGallery s None).

Definition AddImage (img : image.Image) (h : heap image.Image) (g : Gallery)
    : heap image.Image * Gallery :=
  let (h, s) := append h (images g) [img] in (h, mkGallery s (sorter g)).

Definition Images (g : Gallery) : slice := images g.

Definition SetSorter (srt : option Sorter) (g : Gallery) : Gallery :=
  mkGallery (images g) srt.


End gallery_methods.



(** A gallery whose slice is the shelf, sorted by rating. *)
Definition hung : Gallery :=
  mkGallery on_shelf (Some (NewSortByRating true)).

Section gallery_facts.
Context `{!GrowthPolicy}.

(** [AddImage] once for each image of a list, in the order of the list. *)
Definition AddImages (l : list image.Image)
    (hg : heap image.Image * Gallery) : heap image.Image * Gallery :=
  foldl (λ hg img, AddImage img hg.1 hg.2) hg l.

Lemma AddImage_inv img h g n :
  valid h (images g) → n ≤ ptr (images g) → n ≤ length h →
  contents (AddImage img h g).1 (images (AddImage img h g).2)
    = contents h (images g) ++ [img] ∧
  valid (AddImage img h g).1 (images (AddImage img h g).2) ∧
  n ≤ ptr (images (AddImage img h g).2) ∧
  n ≤ length (AddImage img h g).1 ∧
  (∀ p, p < n → array (AddImage img h g).1 p = array h p) ∧
  sorter (AddImage img h g).2 = sorter g.
Proof.
  intros Hv Hn Hh. unfold AddImage.
  pose proof (append_contents h (images g) [img] Hv) as Hc.
  pose proof (append_valid h (images g) [img] Hv) as Hv'.
  pose proof (append_ptr h (images g) [img]) as Hp.
  pose proof (append_heap_length h (images g) [img]) as Hl.
  pose proof (append_array_ne h (images g) [img]) as Hne.
  destruct (append h (images g) [img]) as [h' s]. simpl in *.
  split_and!; try done.
  - destruct Hp as [-> | ->]; done.
  - lia.
  - intros p Hpn. apply Hne; lia.
Qed.

Lemma AddImages_inv l h g n :
  valid h (images g) → n ≤ ptr (images g) → n ≤ length h →
  contents (AddImages l (h, g)).1 (images (AddImages l (h, g)).2)
    = contents h (images g) ++ l ∧
  valid (AddImages l (h, g)).1 (images (AddImages l (h, g)).2) ∧
  (∀ p, p < n → array (AddImages l (h, g)).1 p = array h p) ∧
  sorter (AddImages l (h, g)).2 = sorter g.
Proof.
  revert h g. induction l as [|img l IH]; intros h g Hv Hn Hh; simpl.
  { by rewrite app_nil_r. }
  destruct (AddImage_inv img h g n Hv Hn Hh)
    as (Hc & Hv' & Hn' & Hh' & Hframe & Hsorter).
  unfold AddImages in *. simpl.
  destruct (AddImage img h g) as [h1 g1]. simpl in *.
  destruct (IH h1 g1 Hv' Hn' Hh') as (Hc2 & Hv2 & Hframe2 & Hsorter2).
  split_and!; try done.
  - by rewrite Hc2, Hc, <- app_assoc.
  - intros p Hp. by rewrite Hframe2, Hframe.
  - by rewrite Hsorter2.
Qed.

(** A gallery made by [NewGallery] and filled by [AddImage], however many
    times the slice has to grow on the way, holds the images added, each
    once, in the order they were added, and has no strategy; every array
    the caller had is as it was. *)
Theorem NewGallery_AddImage_builds l h :
  let hg := AddImages l (NewGallery h) in
  contents hg.1 (Images hg.2) = l ∧
  len (Images hg.2) = length l ∧
  sorter hg.2 = None ∧
  (∀ p, p < length h → array hg.1 p = array h p).
Proof.
  simpl. unfold NewGallery, Images.
  pose proof (make_valid h 0) as Hv.
  pose proof (make_contents h 0) as Hc.
  assert (ptr (make h 0).2 = length h) as Hp by done.
  assert (length (make h 0).1 = S (length h)) as Hl.
  { unfold make. simpl. rewrite length_app. simpl. lia. }
  assert (∀ p, p < length h → array (make h 0).1 p = array h p) as Hframe.
  { intros p Hlt. unfold make. simpl. by apply array_app_l. }
  destruct (make h 0) as [h0 s]. simpl in *.
  destruct (AddImages_inv l h0 (mkGallery s None) (length h))
    as (Hc' & Hv' & Hframe' & Hsorter'); simpl; [done|lia|lia|].
  simpl in *. rewrite Hc in Hc'. simpl in Hc'.
  split_and!; try done.
  - rewrite <- (contents_length _ _ Hv'). by rewrite Hc'.
  - intros p Hlt. by rewrite Hframe', Hframe.
Qed.

(** [AddImage] puts the image after the ones the gallery holds, whether or
    not the array has room; a slice that [Images] returned earlier still
    shows the images it showed, without the new one. *)
Theorem AddImage_appends img h g :
  valid h (images g) →
  let h' := (AddImage img h g).1 in
  let g' := (AddImage img h g).2 in
  contents h' (Images g') = contents h (Images g) ++ [img] ∧
  len (Images g') = S (len (Images g)) ∧
  valid h' (Images g') ∧
  contents h' (Images g) = contents h (Images g) ∧
  sorter g' = sorter g.
Proof.
  intros Hv. unfold AddImage, Images.
  pose proof (append_contents h (images g) [img] Hv) as Hc.
  pose proof (append_valid h (images g) [img] Hv) as Hv'.
  pose proof (append_len h (images g) [img]) as Hl.
  pose proof (append_contents_below h (images g) [img] (images g) Hv
                eq_refl ltac:(lia)) as Hold.
  destruct (append h (images g) [img]) as [h' s]. simpl in *.
  split_and!; try done. lia.
Qed.


End gallery_facts.

Lemma AddImage_appends_witness :
  valid shelf (images hung) ∧
  let h' := (@AddImage doubling (image.BasicImagePtr 0) shelf hung).1 in
  let g' := (@AddImage doubling (image.BasicImagePtr 0) shelf hung).2 in
  contents h' (Images g') =
    contents shelf (Images hung) ++ [image.BasicImagePtr 0] ∧
  len (Images g') = S (len (Images hung)) ∧
  valid h' (Images g') ∧
  contents h' (Images hung) = contents shelf (Images hung) ∧
  sorter g' = sorter hung.
Proof.
  split; [exact on_shelf_valid|].
  exact (@AddImage_appends doubling (image.BasicImagePtr 0) shelf hung
           on_shelf_valid).
Defined.



End gallery.
